(** * MidiService: the MIDI dispatch core of LittleGPTracker

    A shallow embedding of [sources/Services/Midi/MidiService.cpp]: the ring
    of message queues, the tick-driven flush countdown and the selection of
    the input and output devices, followed by the properties of the
    specification that were checked against it. *)

From Stdlib Require Import ZArith Lia Ascii String.
From stdpp Require Import base list strings numbers.

Local Open Scope string_scope.

(** ** Data model *)

(** [MidiMessage]: one MIDI event of three [unsigned char]s, kept as
    integers in [0, 256). *)
Record MidiMessage := mkMidiMessage {
  status_ : Z;
  data1_ : Z;
  data2_ : Z
}.

(** Modelled from the spec: the device classes ([MidiInDevice],
    [MidiOutDevice]) are declared outside this file.  Section 4.3 gives a
    device the states Closed, Open, Running and Stopped, and section 6 the
    operations [getName], [open] (here [Init], which may fail), [close],
    [start] (which may fail) and [stop].  Whether [Init] and [Start] succeed
    is decided by the environment; a device record carries those answers. *)
Inductive DevState := DevClosed | DevOpen | DevRunning | DevStopped.

Record MidiDevice := mkDevice {
  dev_name : string;
  dev_init_ok : bool;
  dev_start_ok : bool;
  dev_state : DevState
}.

Definition dev_with_state (st : DevState) (d : MidiDevice) : MidiDevice :=
  {| dev_name := dev_name d; dev_init_ok := dev_init_ok d;
     dev_start_ok := dev_start_ok d; dev_state := st |}.

Definition dev_Init (d : MidiDevice) : MidiDevice * bool :=
  if dev_init_ok d then (dev_with_state DevOpen d, true) else (d, false).

Definition dev_Start (d : MidiDevice) : MidiDevice * bool :=
  if dev_start_ok d then (dev_with_state DevRunning d, true) else (d, false).

Definition dev_Stop (d : MidiDevice) : MidiDevice :=
  match dev_state d with
  | DevRunning => dev_with_state DevStopped d
  | _ => d
  end.

Definition dev_Close (d : MidiDevice) : MidiDevice :=
  dev_with_state DevClosed d.

(** Calls that leave the service: what was asked of which device, and the
    lines written with [Trace::Log]. *)
Inductive Call :=
  | CInit
  | CStart
  | CStop
  | CClose
  | CSendQueue (batch : list MidiMessage).

Inductive Event :=
  | InCall (i : nat) (c : Call)
  | OutCall (i : nat) (c : Call)
  | TraceLog (tag text : string).

(** The fields of [MidiService].  A device pointer is the index of the
    device in the list that owns it, [NULL] is [None].  [outList] is the
    [T_SimpleList<MidiOutDevice>] base class of the service.  [calls] is not
    a field of the class: it records, in order, the calls made on devices and
    on the log. *)
Record MidiService := mkMidiService {
  outList : list MidiDevice;
  inList_ : list MidiDevice;
  deviceName_ : string;
  inDevice_ : option nat;
  outDevice_ : option nat;
  queues_ : list (list MidiMessage);
  currentPlayQueue_ : Z;
  currentOutQueue_ : Z;
  midiDelay_ : Z;
  tickToFlush_ : Z;
  sendSync_ : bool;
  calls : list Event
}.

Definition set_outList (v : list MidiDevice) (s : MidiService) : MidiService :=
  mkMidiService v (inList_ s) (deviceName_ s) (inDevice_ s) (outDevice_ s)
    (queues_ s) (currentPlayQueue_ s) (currentOutQueue_ s) (midiDelay_ s)
    (tickToFlush_ s) (sendSync_ s) (calls s).

Definition set_inList (v : list MidiDevice) (s : MidiService) : MidiService :=
  mkMidiService (outList s) v (deviceName_ s) (inDevice_ s) (outDevice_ s)
    (queues_ s) (currentPlayQueue_ s) (currentOutQueue_ s) (midiDelay_ s)
    (tickToFlush_ s) (sendSync_ s) (calls s).

Definition set_deviceName (v : string) (s : MidiService) : MidiService :=
  mkMidiService (outList s) (inList_ s) v (inDevice_ s) (outDevice_ s)
    (queues_ s) (currentPlayQueue_ s) (currentOutQueue_ s) (midiDelay_ s)
    (tickToFlush_ s) (sendSync_ s) (calls s).

Definition set_inDevice (v : option nat) (s : MidiService) : MidiService :=
  mkMidiService (outList s) (inList_ s) (deviceName_ s) v (outDevice_ s)
    (queues_ s) (currentPlayQueue_ s) (currentOutQueue_ s) (midiDelay_ s)
    (tickToFlush_ s) (sendSync_ s) (calls s).

Definition set_outDevice (v : option nat) (s : MidiService) : MidiService :=
  mkMidiService (outList s) (inList_ s) (deviceName_ s) (inDevice_ s) v
    (queues_ s) (currentPlayQueue_ s) (currentOutQueue_ s) (midiDelay_ s)
    (tickToFlush_ s) (sendSync_ s) (calls s).

Definition set_queues (v : list (list MidiMessage)) (s : MidiService)
  : MidiService :=
  mkMidiService (outList s) (inList_ s) (deviceName_ s) (inDevice_ s)
    (outDevice_ s) v (currentPlayQueue_ s) (currentOutQueue_ s) (midiDelay_ s)
    (tickToFlush_ s) (sendSync_ s) (calls s).

Definition set_currentPlayQueue (v : Z) (s : MidiService) : MidiService :=
  mkMidiService (outList s) (inList_ s) (deviceName_ s) (inDevice_ s)
    (outDevice_ s) (queues_ s) v (currentOutQueue_ s) (midiDelay_ s)
    (tickToFlush_ s) (sendSync_ s) (calls s).

Definition set_currentOutQueue (v : Z) (s : MidiService) : MidiService :=
  mkMidiService (outList s) (inList_ s) (deviceName_ s) (inDevice_ s)
    (outDevice_ s) (queues_ s) (currentPlayQueue_ s) v (midiDelay_ s)
    (tickToFlush_ s) (sendSync_ s) (calls s).

Definition set_tickToFlush (v : Z) (s : MidiService) : MidiService :=
  mkMidiService (outList s) (inList_ s) (deviceName_ s) (inDevice_ s)
    (outDevice_ s) (queues_ s) (currentPlayQueue_ s) (currentOutQueue_ s)
    (midiDelay_ s) v (sendSync_ s) (calls s).

Definition set_calls (v : list Event) (s : MidiService) : MidiService :=
  mkMidiService (outList s) (inList_ s) (deviceName_ s) (inDevice_ s)
    (outDevice_ s) (queues_ s) (currentPlayQueue_ s) (currentOutQueue_ s)
    (midiDelay_ s) (tickToFlush_ s) (sendSync_ s) v.

Definition emit (e : Event) (s : MidiService) : MidiService :=
  set_calls (calls s ++ [e]) s.

(** [queues_[c]] for a C [int] index.  Inside the array the slot is read or
    replaced; outside it the C++ behaviour is undefined, and the model reads
    an empty queue and writes nothing.  [Start] puts both cursors inside the
    array and every operation keeps them there. *)
Definition slot_get (qs : list (list MidiMessage)) (c : Z) : list MidiMessage :=
  if (0 <=? c)%Z then default [] (qs !! Z.to_nat c) else [].

Definition slot_set (qs : list (list MidiMessage)) (c : Z)
    (q : list MidiMessage) : list (list MidiMessage) :=
  if (0 <=? c)%Z then <[Z.to_nat c := q]> qs else qs.

(** ** Calls on devices

    A call through a device pointer changes the device where the list keeps
    it, so every holder of the index sees the change. *)

Definition in_GetName (i : nat) (s : MidiService) : string :=
  match inList_ s !! i with Some d => dev_name d | None => "" end.

Definition in_Init (i : nat) (s : MidiService) : MidiService * bool :=
  match inList_ s !! i with
  | Some d =>
      (emit (InCall i CInit) (set_inList (<[i := (dev_Init d).1]> (inList_ s)) s),
       (dev_Init d).2)
  | None => (s, false)
  end.

Definition in_Start (i : nat) (s : MidiService) : MidiService * bool :=
  match inList_ s !! i with
  | Some d =>
      (emit (InCall i CStart) (set_inList (<[i := (dev_Start d).1]> (inList_ s)) s),
       (dev_Start d).2)
  | None => (s, false)
  end.

Definition in_Stop (i : nat) (s : MidiService) : MidiService :=
  emit (InCall i CStop) (set_inList (alter dev_Stop i (inList_ s)) s).

Definition in_Close (i : nat) (s : MidiService) : MidiService :=
  emit (InCall i CClose) (set_inList (alter dev_Close i (inList_ s)) s).

Definition out_Init (i : nat) (s : MidiService) : MidiService * bool :=
  match outList s !! i with
  | Some d =>
      (emit (OutCall i CInit) (set_outList (<[i := (dev_Init d).1]> (outList s)) s),
       (dev_Init d).2)
  | None => (s, false)
  end.

Definition out_Start (i : nat) (s : MidiService) : MidiService * bool :=
  match outList s !! i with
  | Some d =>
      (emit (OutCall i CStart) (set_outList (<[i := (dev_Start d).1]> (outList s)) s),
       (dev_Start d).2)
  | None => (s, false)
  end.

Definition out_Stop (i : nat) (s : MidiService) : MidiService :=
  emit (OutCall i CStop) (set_outList (alter dev_Stop i (outList s)) s).

Definition out_Close (i : nat) (s : MidiService) : MidiService :=
  emit (OutCall i CClose) (set_outList (alter dev_Close i (outList s)) s).

Definition out_SendQueue (i : nat) (batch : list MidiMessage)
    (s : MidiService) : MidiService :=
  emit (OutCall i (CSendQueue batch)) s.

(** ** Configuration *)

(** [atoi] of the C library, which is [(int) strtol (s, NULL, 10)]: leading
    white space is skipped, one sign is read, then decimal digits up to the
    first other character; [strtol] returns that number kept within the range
    of [long], and the conversion to [int] keeps its low 32 bits.  [long] has
    64 bits and [int] 32.  (ISO C leaves [atoi] undefined when the number
    does not fit an [int]; this is what the library does.) *)
Definition isspace (c : ascii) : bool :=
  let n := nat_of_ascii c in
  Nat.eqb n 32 || (Nat.leb 9 n && Nat.leb n 13).

Definition isdigit (c : ascii) : bool :=
  let n := nat_of_ascii c in
  Nat.leb 48 n && Nat.leb n 57.

Fixpoint skip_space (s : string) : string :=
  match s with
  | String c r => if isspace c then skip_space r else s
  | EmptyString => s
  end.

Fixpoint digits_val (acc : Z) (s : string) : Z :=
  match s with
  | String c r =>
      if isdigit c
      then digits_val (10 * acc + (Z.of_nat (nat_of_ascii c) - 48))%Z r
      else acc
  | EmptyString => acc
  end.

Definition leading_integer (s : string) : Z :=
  match skip_space s with
  | String "-"%char r => (- digits_val 0 r)%Z
  | String "+"%char r => digits_val 0 r
  | r => digits_val 0 r
  end.

Definition LONG_MAX : Z := 9223372036854775807.
Definition LONG_MIN : Z := -9223372036854775808.
Definition INT_MAX : Z := 2147483647.
Definition INT_MIN : Z := -2147483648.

Definition strtol (s : string) : Z :=
  Z.max LONG_MIN (Z.min LONG_MAX (leading_integer s)).

(** The conversion of a [long] to [int]: the value modulo [2^32], taken in
    [INT_MIN .. INT_MAX]. *)
Definition to_int (z : Z) : Z :=
  ((z + 2147483648) mod 4294967296 - 2147483648)%Z.

Definition atoi (s : string) : Z := to_int (strtol s).

(** [Config::GetInstance()->GetValue(key)]: the text of an option, or [NULL]
    ([None]) when the option is not set. *)
Definition Config := string -> option string.

(** The constructor initialises neither cursor nor [tickToFlush_]; the
    values they start with are whatever the memory held. *)
Record Indeterminate := mkIndeterminate {
  u_currentPlayQueue : Z;
  u_currentOutQueue : Z;
  u_tickToFlush : Z
}.

(** The outcome of a member function that dereferences a device pointer
    without testing it. *)
Inductive result (A : Type) :=
  | Ok (a : A)
  | NullDeref.
Arguments Ok {A} a.
Arguments NullDeref {A}.

(** ** The service *)

Section Service.

Local Open Scope Z_scope.

(** [MIDI_MAX_BUFFERS], the number of queues of the ring, and the bytes a
    default-constructed [MidiMessage] holds come from [MidiService.h] and
    [MidiMessage.h]. *)
Variable MIDI_MAX_BUFFERS : Z.
Variable MidiMessage_default : MidiMessage.

Definition MidiService_new (config : Config) (u : Indeterminate) : MidiService :=
  {| outList := [];
     inList_ := [];
     deviceName_ := "";
     inDevice_ := None;
     outDevice_ := None;
     queues_ := replicate (Z.to_nat MIDI_MAX_BUFFERS) [];
     currentPlayQueue_ := u_currentPlayQueue u;
     currentOutQueue_ := u_currentOutQueue u;
     midiDelay_ :=
       match config "MIDIDELAY" with
       | Some delay => atoi delay
       | None => 1
       end;
     tickToFlush_ := u_tickToFlush u;
     sendSync_ :=
       match config "MIDISENDSYNC" with
       | Some sendSync => String.eqb sendSync "YES"
       | None => true
       end;
     calls := [] |}.

(** [Init]: both device lists are emptied and filled again by
    [buildDriverList], which the platform supplies; its result is given as
    [ins] and [outs].  The input merger is not modelled. *)
Definition Init (ins outs : list MidiDevice) (s : MidiService)
  : MidiService * bool :=
  (set_inList ins (set_outList outs s), true).

Definition stopOutDevice (s : MidiService) : MidiService :=
  let s1 :=
    match outDevice_ s with
    | Some o => out_Close o (out_Stop o s)
    | None => s
    end in
  set_outDevice None s1.

Definition Stop (s : MidiService) : MidiService := stopOutDevice s.

Definition Close (s : MidiService) : result MidiService :=
  let s1 := Stop s in
  match inDevice_ s1 with
  | Some i => Ok (in_Close i (in_Stop i s1))
  | None => NullDeref
  end.

(** One turn of the loop of [SelectDevice] over the input devices. *)
Definition select_visit (s : MidiService) (i : nat) : MidiService :=
  match inList_ s !! i with
  | None => s
  | Some d =>
      if String.eqb (deviceName_ s) (dev_name d) then
        let '(s1, ok) := in_Init i s in
        if ok then
          let s2 := set_inDevice (Some i) s1 in
          let '(s3, started) := in_Start i s2 in
          if started then
            emit (TraceLog "MIDI"
                    ("Controlling activated for MIDI interface " ++ dev_name d)) s3
          else
            in_Close i
              (emit (TraceLog "MIDI"
                       ("Failed to start input for MIDI interface " ++ dev_name d)) s3)
        else s1
      else s
  end.

Definition SelectDevice (name : string) (s : MidiService) : MidiService :=
  let s0 := set_deviceName name s in
  let '(s1, skipStart) :=
    match inDevice_ s0 with
    | Some i =>
        if negb (String.eqb (deviceName_ s0) (in_GetName i s0))
        then (set_inDevice None (in_Close i (in_Stop i s0)), false)
        else (s0, true)
    | None => (s0, false)
    end in
  let s2 :=
    if skipStart then s1
    else foldl select_visit s1 (seq 0 (length (inList_ s1))) in
  match inDevice_ s2 with
  | None =>
      emit (TraceLog "MIDI" ("MIDI interface " ++ deviceName_ s2 ++ " not found")) s2
  | Some _ => s2
  end.

(** [SelectDevice] from its loop on: the search that is made when the start
    is not skipped, and the line logged when no device ends up bound. *)
Definition select_search (s1 : MidiService) : MidiService :=
  let s2 := foldl select_visit s1 (seq 0 (length (inList_ s1))) in
  match inDevice_ s2 with
  | None =>
      emit (TraceLog "MIDI" ("MIDI interface " ++ deviceName_ s2 ++ " not found")) s2
  | Some _ => s2
  end.

Definition Start (s : MidiService) : MidiService * bool :=
  (set_currentOutQueue 0 (set_currentPlayQueue 0 s), true).

(** Modelled from the spec: [T_SimpleList::Insert] is declared outside this
    file; a queue slot keeps its messages in insertion order, so [Insert]
    adds at the end and [Empty] leaves the empty list. *)
Definition QueueMessage (m : MidiMessage) (s : MidiService) : MidiService :=
  match outDevice_ s with
  | Some _ =>
      let queue := slot_get (queues_ s) (currentPlayQueue_ s) in
      let ms := mkMidiMessage (status_ m) (data1_ m) (data2_ m) in
      set_queues (slot_set (queues_ s) (currentPlayQueue_ s) (queue ++ [ms])) s
  | None => s
  end.

Definition AdvancePlayQueue (s : MidiService) : MidiService :=
  let s1 :=
    set_currentPlayQueue (Z.rem (currentPlayQueue_ s + 1) MIDI_MAX_BUFFERS) s in
  set_queues (slot_set (queues_ s1) (currentPlayQueue_ s1) []) s1.

(** [MidiMessage msg; msg.status_ = st;] *)
Definition sync_message (st : Z) : MidiMessage :=
  mkMidiMessage st (data1_ MidiMessage_default) (data2_ MidiMessage_default).

(** [Trigger]; [slice] is the answer of [SyncMaster::MidiSlice]. *)
Definition Trigger (slice : bool) (s : MidiService) : MidiService :=
  let s1 := AdvancePlayQueue s in
  match outDevice_ s1 with
  | Some _ =>
      if sendSync_ s1 then
        if slice then QueueMessage (sync_message 248) s1 else s1
      else s1
  | None => s1
  end.

Definition flushOutQueue (s : MidiService) : MidiService :=
  let s1 :=
    set_currentOutQueue (Z.rem (currentOutQueue_ s + 1) MIDI_MAX_BUFFERS) s in
  let flushQueue := slot_get (queues_ s1) (currentOutQueue_ s1) in
  let s2 :=
    match outDevice_ s1 with
    | Some o => out_SendQueue o flushQueue s1
    | None => s1
    end in
  set_queues (slot_set (queues_ s2) (currentOutQueue_ s2) []) s2.

Definition onAudioTick (s : MidiService) : MidiService :=
  if 0 <? tickToFlush_ s then
    let s1 := set_tickToFlush (tickToFlush_ s - 1) s in
    if tickToFlush_ s1 =? 0 then flushOutQueue s1 else s1
  else s.

Definition Flush (s : MidiService) : MidiService :=
  let s1 := set_tickToFlush (midiDelay_ s) s in
  if tickToFlush_ s1 =? 0 then flushOutQueue s1 else s1.

(** The loop of [startOutDevice]: the first device of the list whose name
    is [deviceName_] is tried, and the loop ends there. *)
Fixpoint startOutDevice_loop (i : nat) (rest : list MidiDevice)
    (s : MidiService) : MidiService :=
  match rest with
  | [] => s
  | current :: rest' =>
      if String.eqb (deviceName_ s) (dev_name current) then
        let '(s1, ok) := out_Init i s in
        if ok then
          let '(s2, started) := out_Start i s1 in
          if started then
            set_outDevice (Some i)
              (emit (TraceLog "MidiService"
                       ("midi device " ++ deviceName_ s2 ++ " started")) s2)
          else
            out_Close i
              (emit (TraceLog "MidiService"
                       ("midi device " ++ deviceName_ s2 ++ " failed to start")) s2)
        else s1
      else startOutDevice_loop (S i) rest' s
  end.

Definition startOutDevice (s : MidiService) : MidiService :=
  startOutDevice_loop 0%nat (outList s) s.

Definition OnPlayerStart (s : MidiService) : MidiService :=
  let s1 :=
    if negb (Nat.eqb (String.length (deviceName_ s)) 0)
    then set_deviceName "" (startOutDevice (stopOutDevice s))
    else startOutDevice s in
  if sendSync_ s1 then QueueMessage (sync_message 250) s1 else s1.

Definition OnPlayerStop (s : MidiService) : MidiService :=
  if sendSync_ s then QueueMessage (sync_message 252) s else s.

(** ** Driving the ring

    The playback engine and the audio driver reach the ring through four
    entry points; a run is a sequence of such calls. *)

Inductive Op :=
  | OpAdvance
  | OpEnqueue (m : MidiMessage)
  | OpFlush
  | OpTick.

Definition exec (s : MidiService) (o : Op) : MidiService :=
  match o with
  | OpAdvance => AdvancePlayQueue s
  | OpEnqueue m => QueueMessage m s
  | OpFlush => Flush s
  | OpTick => onAudioTick s
  end.

Definition run (ops : list Op) (s : MidiService) : MidiService :=
  foldl exec s ops.

Fixpoint ticks (n : nat) (s : MidiService) : MidiService :=
  match n with
  | O => s
  | S k => ticks k (onAudioTick s)
  end.

(** Whether the call [o], made in state [s], takes the branch that calls
    [flushOutQueue]. *)
Definition fires (s : MidiService) (o : Op) : bool :=
  match o with
  | OpFlush => midiDelay_ s =? 0
  | OpTick => (0 <? tickToFlush_ s) && (tickToFlush_ s - 1 =? 0)
  | _ => false
  end.

Fixpoint fire_log (ops : list Op) (s : MidiService) : list bool :=
  match ops with
  | [] => []
  | o :: rest => fires s o :: fire_log rest (exec s o)
  end.

Fixpoint drain_count (ops : list Op) (s : MidiService) : nat :=
  match ops with
  | [] => 0%nat
  | o :: rest => ((if fires s o then 1 else 0) + drain_count rest (exec s o))%nat
  end.

(** The batches handed to [SendQueue], oldest first. *)
Definition sent (tr : list Event) : list (list MidiMessage) :=
  omap (fun e => match e with
                 | OutCall _ (CSendQueue batch) => Some batch
                 | _ => None
                 end) tr.

(** The queue that the next [AdvancePlayQueue] empties. *)
Definition overwritten (s : MidiService) : list MidiMessage :=
  slot_get (queues_ s) (Z.rem (currentPlayQueue_ s + 1) MIDI_MAX_BUFFERS).

(** The messages that a run destroys before any drain has sent them: the
    non-empty queues emptied by [AdvancePlayQueue]. *)
Fixpoint lost (ops : list Op) (s : MidiService) : list (list MidiMessage) :=
  match ops with
  | [] => []
  | o :: rest =>
      match o, overwritten s with
      | OpAdvance, m :: q => [m :: q]
      | _, _ => []
      end ++ lost rest (exec s o)
  end.

(** One playback step and the ticks around it: [AdvancePlayQueue], the
    messages of the step (audio ticks may fall between them), [Flush], then
    the ticks that pass before the next step. *)
Inductive StepItem :=
  | Enq (m : MidiMessage)
  | MidTick.

Definition item_op (it : StepItem) : Op :=
  match it with
  | Enq m => OpEnqueue m
  | MidTick => OpTick
  end.

Record Cycle := mkCycle {
  items : list StepItem;
  ticks_after : nat
}.

Definition cycle_ops (c : Cycle) : list Op :=
  OpAdvance :: (item_op <$> items c) ++ OpFlush :: replicate (ticks_after c) OpTick.

Definition cycle_msgs (c : Cycle) : list MidiMessage :=
  omap (fun it => match it with Enq m => Some m | MidTick => None end) (items c).

End Service.

(** The state the ring is in between two playback steps when every flush
    has fired: cursors together inside the ring, no countdown running, every
    queue empty, an output device bound. *)
Record settled (N : Z) (s : MidiService) : Prop := mkSettled {
  settled_size : queues_ s = replicate (Z.to_nat N) [];
  settled_play : (0 <= currentPlayQueue_ s < N)%Z;
  settled_out : currentOutQueue_ s = currentPlayQueue_ s;
  settled_tick : tickToFlush_ s = 0%Z;
  settled_delay : (0 <= midiDelay_ s)%Z;
  settled_dev : is_Some (outDevice_ s)
}.

(** The names of the input devices, in the order of the list. *)
Definition in_names (s : MidiService) : list string := dev_name <$> inList_ s.

(** An event that the search loop of [SelectDevice] may produce when it
    starts from [s]: a line of the log, or a call other than [Stop] on an
    input device that bears the requested name. *)
Definition on_named (s : MidiService) (e : Event) : Prop :=
  match e with
  | InCall j c => in_names s !! j = Some (deviceName_ s) /\ c <> CStop
  | OutCall _ _ => False
  | TraceLog _ _ => True
  end.

(** What the search loop may have done when it has gone from [s] to [s']. *)
Record selecting (s s' : MidiService) : Prop := mkSelecting {
  sel_name : deviceName_ s' = deviceName_ s;
  sel_names : in_names s' = in_names s;
  sel_calls : exists tl, calls s' = (calls s ++ tl)%list /\ Forall (on_named s) tl;
  sel_others : forall j,
    in_names s !! j <> Some (deviceName_ s) -> inList_ s' !! j = inList_ s !! j;
  sel_bound : forall j,
    inDevice_ s' = Some j ->
    inDevice_ s = Some j \/ in_names s !! j = Some (deviceName_ s)
}.

(** The state inside a playback step that began in [s]: the write cursor
    stands on slot [p], which holds the messages [acc] of the step. *)
Definition in_step (p : Z) (acc : list MidiMessage) (s : MidiService)
  : MidiService :=
  set_queues (slot_set (queues_ s) p acc) (set_currentPlayQueue p s).

(** The number of ticks that fall inside a step. *)
Fixpoint mid_ticks (its : list StepItem) : nat :=
  match its with
  | [] => 0
  | MidTick :: rest => S (mid_ticks rest)
  | Enq _ :: rest => mid_ticks rest
  end.

(** At least [d] ticks fall between each [Flush] and the next one, so that
    no countdown is restarted before it has ended.  [r] is the number of
    ticks that the countdown of the step before still needs; they have to
    come before the [Flush] of the next step. *)
Fixpoint paced (d r : nat) (cycles : list Cycle) : bool :=
  match cycles with
  | [] => true
  | c :: rest =>
      Nat.leb r (mid_ticks (items c)) && paced d (d - ticks_after c) rest
  end.

(** Fewer than [d] ticks fall between each [Flush] and the next one, and
    after the last: every countdown is restarted before it has ended.  [r]
    is what the running countdown stands at, 0 when none is running. *)
Fixpoint hurried (d r : nat) (cycles : list Cycle) : bool :=
  match cycles with
  | [] => true
  | c :: rest =>
      (Nat.eqb r 0 || Nat.ltb (mid_ticks (items c)) r) &&
      Nat.ltb (ticks_after c) d && hurried d (d - ticks_after c) rest
  end.

(** The settled ring [g] one step later, when the messages [pm] of that
    step have been sent to the output device [o]. *)
Definition drained (N : Z) (o : nat) (pm : list MidiMessage) (g : MidiService)
  : MidiService :=
  emit (OutCall o (CSendQueue pm))
    (set_currentOutQueue (Z.rem (currentPlayQueue_ g + 1) N)
       (set_currentPlayQueue (Z.rem (currentPlayQueue_ g + 1) N) g)).

(** The ring with [r] ticks of the countdown left: settled as [g] when
    [r = 0]; otherwise one step further than [g], the messages [pm] of that
    step waiting in the slot of the write cursor for their drain. *)
Definition flight (N : Z) (g : MidiService) (r : nat) (pm : list MidiMessage)
  : MidiService :=
  match r with
  | O => g
  | S _ =>
      set_tickToFlush (Z.of_nat r)
        (in_step (Z.rem (currentPlayQueue_ g + 1) N) pm g)
  end.

(** Whether a countdown is running, and how many times a run arms one. *)
Definition armed (s : MidiService) : nat :=
  if (0 <? tickToFlush_ s)%Z then 1 else 0.

Fixpoint arms (ops : list Op) : nat :=
  match ops with
  | [] => 0
  | OpFlush :: rest => S (arms rest)
  | _ :: rest => arms rest
  end.

(** A text in which [atoi] finds no number at all: it is empty, or its first
    character is neither white space, nor a sign, nor a digit. *)
Definition no_leading_number (v : string) : bool :=
  match v with
  | String c _ =>
      negb (isspace c || isdigit c || Ascii.eqb c "-" || Ascii.eqb c "+")
  | EmptyString => true
  end.

(** ** Sample values

    A four-slot ring, two note messages, one device of each kind and the
    service as it stands once the device has been selected and playback has
    started. *)

Definition noteA : MidiMessage := mkMidiMessage 144 60 100.
Definition noteB : MidiMessage := mkMidiMessage 128 60 0.
Definition unused_bytes : MidiMessage := mkMidiMessage 0 255 255.

Definition sample_config (delay : string) : Config :=
  fun key =>
    if String.eqb key "MIDIDELAY" then Some delay
    else if String.eqb key "MIDISENDSYNC" then Some "NO"
    else None.

Definition sample_memory : Indeterminate := mkIndeterminate 7 (-3) 0.

Definition port_out : MidiDevice := mkDevice "port" true true DevClosed.
Definition port_in : MidiDevice := mkDevice "port" true true DevClosed.
Definition pad_in : MidiDevice := mkDevice "pad" true true DevClosed.
Definition stuck_in : MidiDevice := mkDevice "stuck" true false DevClosed.
Definition stuck_out : MidiDevice := mkDevice "stuck" true false DevClosed.

Definition sample_new (delay : string) : MidiService :=
  (Init [port_in; pad_in; stuck_in] [port_out; stuck_out]
     (MidiService_new 4 (sample_config delay) sample_memory)).1.

Definition sample_playing (delay : string) : MidiService :=
  (Start (OnPlayerStart unused_bytes (SelectDevice "port" (sample_new delay)))).1.

(** The service after the input device whose start fails was selected. *)
Definition sample_stuck : MidiService := SelectDevice "stuck" (sample_new "1").

(** A ring in which one step was played and never flushed. *)
Definition sample_undrained : MidiService :=
  run 4 [OpAdvance; OpEnqueue noteA] (sample_playing "1").

(** The playing service with a ring of two queues and a delay of 1, and
    three steps whose drain comes with a tick inside the next step. *)
Definition sample_two_slots : MidiService :=
  (Start
     (OnPlayerStart unused_bytes
        (SelectDevice "port"
           (Init [port_in] [port_out]
              (MidiService_new 2 (sample_config "1") sample_memory)).1))).1.

Definition scenario (a b : MidiMessage) : list Op :=
  [OpAdvance; OpEnqueue a; OpAdvance; OpEnqueue b; OpFlush; OpTick; OpTick].

(** Five playback steps, one audio tick after each; step [k] plays the
    note [60 + k]. *)
Definition step_note (k : Z) : MidiMessage := mkMidiMessage 144 (60 + k) 100.

Definition one_tick_per_step : list Cycle :=
  (fun k => mkCycle [Enq (step_note k)] 1) <$> [1; 2; 3; 4; 5]%Z.

(** Three steps at delay 1 in which the tick that fires the drain of a step
    falls inside the next step. *)
Definition drain_in_next_step : list Cycle :=
  [mkCycle [Enq (step_note 1)] 0;
   mkCycle [MidTick; Enq (step_note 2)] 0;
   mkCycle [Enq (step_note 3); MidTick] 1].

(** Three steps at delay 3 with two ticks between each [Flush] and the
    next, some of them inside the steps. *)
Definition ticks_inside_steps : list Cycle :=
  [mkCycle [Enq (step_note 1)] 1;
   mkCycle [MidTick; Enq (step_note 2)] 1;
   mkCycle [Enq (step_note 3); MidTick] 2].

(** ** The entry points together *)

(** [Update]: the observer callback of the audio driver.  [type_] is the
    type of the event received and [ADET_DRIVERTICK] the enumerator of
    [AudioDriver.h] it is compared with. *)
Definition Update (N ADET_DRIVERTICK type_ : Z) (s : MidiService) : MidiService :=
  if (type_ =? ADET_DRIVERTICK)%Z then onAudioTick N s else s.

(** The calls a client makes once [Init] has enumerated the devices. *)
Inductive Action :=
  | DoSelectDevice (name : string)
  | DoStart
  | DoStop
  | DoQueueMessage (m : MidiMessage)
  | DoTrigger (slice : bool)
  | DoUpdate (type_ : Z)
  | DoFlush
  | DoOnPlayerStart
  | DoOnPlayerStop.

Definition perform (N : Z) (dflt : MidiMessage) (tick_type : Z)
    (s : MidiService) (a : Action) : MidiService :=
  match a with
  | DoSelectDevice name => SelectDevice name s
  | DoStart => (Start s).1
  | DoStop => Stop s
  | DoQueueMessage m => QueueMessage m s
  | DoTrigger slice => Trigger N dflt slice s
  | DoUpdate type_ => Update N tick_type type_ s
  | DoFlush => Flush N s
  | DoOnPlayerStart => OnPlayerStart dflt s
  | DoOnPlayerStop => OnPlayerStop dflt s
  end.

Definition perform_all (N : Z) (dflt : MidiMessage) (tick_type : Z)
    (acts : list Action) (s : MidiService) : MidiService :=
  foldl (perform N dflt tick_type) s acts.

(** Both cursors inside a ring of [N] queues. *)
Record ring_ok (N : Z) (s : MidiService) : Prop := mkRingOk {
  ring_len : length (queues_ s) = Z.to_nat N;
  ring_play : (0 <= currentPlayQueue_ s < N)%Z;
  ring_out : (0 <= currentOutQueue_ s < N)%Z
}.

(** The ring between two playback steps when every flush has fired,
    whatever its queues hold: cursors inside the ring and level with each
    other, no countdown running, a delay that is not negative and an output
    device bound. *)
Record level (N : Z) (s : MidiService) : Prop := mkLevel {
  level_ring : ring_ok N s;
  level_out : currentOutQueue_ s = currentPlayQueue_ s;
  level_tick : tickToFlush_ s = 0%Z;
  level_delay : (0 <= midiDelay_ s)%Z;
  level_dev : is_Some (outDevice_ s)
}.

(** The parts of the state: the ring with its countdown, the configuration,
    the input side and the output side. *)
Definition ring_of (s : MidiService) :=
  (queues_ s, currentPlayQueue_ s, currentOutQueue_ s, tickToFlush_ s).

Definition config_of (s : MidiService) := (midiDelay_ s, sendSync_ s).

Definition in_side (s : MidiService) := (inList_ s, inDevice_ s).

Definition out_side (s : MidiService) := (outList s, outDevice_ s).

Definition out_names (s : MidiService) : list string := dev_name <$> outList s.

(** The output pointer, when set, points into the list at a running
    device. *)
Definition out_ok (s : MidiService) : Prop :=
  forall i, outDevice_ s = Some i ->
    exists d, outList s !! i = Some d /\ dev_state d = DevRunning.

(** The body of the loop of [startOutDevice] at the device that bears the
    name. *)
Definition startOutDevice_try (i : nat) (s : MidiService) : MidiService :=
  let '(s1, ok) := out_Init i s in
  if ok then
    let '(s2, started) := out_Start i s1 in
    if started then
      set_outDevice (Some i)
        (emit (TraceLog "MidiService"
                 ("midi device " ++ deviceName_ s2 ++ " started")) s2)
    else
      out_Close i
        (emit (TraceLog "MidiService"
                 ("midi device " ++ deviceName_ s2 ++ " failed to start")) s2)
  else s1.

(** A [SendQueue] call on the output device [o]. *)
Definition is_send_to (o : option nat) (e : Event) : Prop :=
  match e with
  | OutCall i (CSendQueue _) => o = Some i
  | _ => False
  end.

(** The state a device is left in by one attempt to open and start it. *)
Definition dev_attempted (d : MidiDevice) : DevState :=
  if dev_init_ok d then
    if dev_start_ok d then DevRunning else DevClosed
  else dev_state d.

(** More sample values: a session of calls, the same without any device
    selection, a service whose only input device cannot be opened, and a
    playing service onto whose ring a message was queued outside a step. *)
Definition sample_session : list Action :=
  [DoSelectDevice "port"; DoOnPlayerStart; DoStart; DoTrigger true;
   DoQueueMessage noteA; DoFlush; DoUpdate 1; DoUpdate 0; DoOnPlayerStop;
   DoSelectDevice "pad"; DoOnPlayerStart; DoStop].

Definition sample_playback : list Action :=
  [DoStart; DoTrigger true; DoQueueMessage noteA; DoFlush; DoUpdate 1;
   DoOnPlayerStop].

Definition dead_in : MidiDevice := mkDevice "dead" false true DevClosed.

Definition sample_dead : MidiService :=
  (Init [dead_in] [] (MidiService_new 4 (sample_config "1") sample_memory)).1.

Definition sample_stray : MidiService := QueueMessage noteB (sample_playing "1").

(** The service when the configuration sets no option (delay 1, sync
    enabled), once [Start] and then [OnPlayerStart] have run. *)
Definition sample_synced : MidiService :=
  OnPlayerStart unused_bytes
    (Start
       (SelectDevice "port"
          (Init [port_in] [port_out]
             (MidiService_new 4 (fun _ => None) sample_memory)).1)).1.

(** * Properties *)

Local Open Scope list_scope.

(** ** Records and slots *)

Lemma set_tickToFlush_same s : set_tickToFlush (tickToFlush_ s) s = s.
Proof. by destruct s. Qed.

Lemma set_tickToFlush_twice a b s :
  set_tickToFlush a (set_tickToFlush b s) = set_tickToFlush a s.
Proof. done. Qed.

Lemma set_deviceName_same s : set_deviceName (deviceName_ s) s = s.
Proof. by destruct s. Qed.

Lemma MidiMessage_copy m : mkMidiMessage (status_ m) (data1_ m) (data2_ m) = m.
Proof. by destruct m. Qed.

Lemma slot_get_set qs c q :
  (0 <= c < Z.of_nat (length qs))%Z -> slot_get (slot_set qs c q) c = q.
Proof.
  intros [Hlo Hhi]. unfold slot_get, slot_set.
  destruct (Z.leb_spec 0 c) as [_|]; [|lia].
  rewrite list_lookup_insert_eq; [done | lia].
Qed.

Lemma slot_get_replicate n c : slot_get (replicate n []) c = [].
Proof.
  unfold slot_get. destruct (0 <=? c)%Z; [|done].
  destruct (replicate n [] !! Z.to_nat c) as [q|] eqn:E; [|done].
  apply lookup_replicate in E as [-> _]. done.
Qed.

Lemma slot_set_set qs c q q' : slot_set (slot_set qs c q) c q' = slot_set qs c q'.
Proof.
  unfold slot_set. destruct (0 <=? c)%Z; [|done]. apply list_insert_insert_eq.
Qed.

Lemma slot_set_replicate n c : slot_set (replicate n []) c [] = replicate n [].
Proof.
  unfold slot_set. destruct (0 <=? c)%Z; [|done]. apply insert_replicate.
Qed.

Lemma slot_set_empty_ring qs n c :
  qs = replicate n [] -> slot_set qs c [] = qs.
Proof. intros ->. apply slot_set_replicate. Qed.

Lemma rem_succ_range N p : (0 <= p < N)%Z -> (0 <= Z.rem (p + 1) N < N)%Z.
Proof. intros H. apply Z.rem_bound_pos; lia. Qed.

Lemma length_slot_set qs c q : length (slot_set qs c q) = length qs.
Proof. unfold slot_set. destruct (0 <=? c)%Z; [apply length_insert | done]. Qed.

Lemma slot_get_set_ne qs c c' q :
  c <> c' -> slot_get (slot_set qs c q) c' = slot_get qs c'.
Proof.
  intros Hne. unfold slot_get, slot_set.
  destruct (Z.leb_spec 0 c'); [|done]. destruct (Z.leb_spec 0 c); [|done].
  rewrite list_lookup_insert_ne by lia. done.
Qed.

(** ** The countdown *)

Section Countdown.

Variable N : Z.

Lemma tickToFlush_flushOutQueue s :
  tickToFlush_ (flushOutQueue N s) = tickToFlush_ s.
Proof. by destruct s as [? ? ? ? [o|] ? ? ? ? ? ? ?]. Qed.

Lemma onAudioTick_idle s : (tickToFlush_ s <= 0)%Z -> onAudioTick N s = s.
Proof.
  intros H. unfold onAudioTick.
  destruct (Z.ltb_spec 0 (tickToFlush_ s)); [lia | done].
Qed.

Lemma onAudioTick_count s :
  (1 < tickToFlush_ s)%Z ->
  onAudioTick N s = set_tickToFlush (tickToFlush_ s - 1) s.
Proof.
  intros H. unfold onAudioTick.
  destruct (Z.ltb_spec 0 (tickToFlush_ s)); [|lia]. cbn.
  destruct (Z.eqb_spec (tickToFlush_ s - 1) 0); [lia | done].
Qed.

Lemma onAudioTick_fire s :
  tickToFlush_ s = 1%Z ->
  onAudioTick N s = flushOutQueue N (set_tickToFlush 0 s).
Proof. intros H. unfold onAudioTick. rewrite H. done. Qed.

Lemma ticks_idle n s : (tickToFlush_ s <= 0)%Z -> ticks N n s = s.
Proof.
  induction n as [|n IH]; intros H; [done|].
  cbn. rewrite onAudioTick_idle by done. by apply IH.
Qed.

Lemma ticks_add a b s : ticks N (a + b) s = ticks N b (ticks N a s).
Proof. revert s. induction a as [|a IH]; intros s; cbn; [done | apply IH]. Qed.

Lemma ticks_before t j s :
  tickToFlush_ s = Z.of_nat t -> j < t ->
  ticks N j s = set_tickToFlush (Z.of_nat (t - j)) s.
Proof.
  revert t s. induction j as [|j IH]; intros t s Ht Hj.
  - rewrite Nat.sub_0_r, <- Ht. cbn. by rewrite set_tickToFlush_same.
  - cbn. rewrite onAudioTick_count by lia.
    rewrite (IH (t - 1)); [| cbn; lia | lia].
    rewrite set_tickToFlush_twice. do 2 f_equal. lia.
Qed.

Lemma ticks_at t s :
  tickToFlush_ s = Z.of_nat t -> 0 < t ->
  ticks N t s = flushOutQueue N (set_tickToFlush 0 s).
Proof.
  intros Ht Hpos. replace t with ((t - 1) + 1) at 1 by lia.
  rewrite ticks_add, (ticks_before t (t - 1) s) by lia. cbn.
  rewrite onAudioTick_fire by (cbn; lia). by rewrite set_tickToFlush_twice.
Qed.

Lemma ticks_from t j s :
  tickToFlush_ s = Z.of_nat t -> 0 < t ->
  ticks N (t + j) s = flushOutQueue N (set_tickToFlush 0 s).
Proof.
  intros Ht Hpos. rewrite ticks_add, (ticks_at t s) by done.
  apply ticks_idle. by rewrite tickToFlush_flushOutQueue.
Qed.

Lemma run_ticks n s : run N (replicate n OpTick) s = ticks N n s.
Proof. revert s. induction n as [|n IH]; intros s; [done | apply IH]. Qed.

Lemma run_app a b s : run N (a ++ b) s = run N b (run N a s).
Proof. apply foldl_app. Qed.

Lemma run_cons o ops s : run N (o :: ops) s = run N ops (exec N s o).
Proof. done. Qed.

Lemma fire_log_app a b s :
  fire_log N (a ++ b) s = fire_log N a s ++ fire_log N b (run N a s).
Proof.
  revert s. induction a as [|o a IH]; intros s; [done|].
  cbn. by rewrite IH.
Qed.

(** The [j]-th tick (counted from 1) of a countdown standing at [t] is the
    one that drains. *)
Lemma fire_log_ticks n t s :
  tickToFlush_ s = Z.of_nat t ->
  fire_log N (replicate n OpTick) s = (fun j => Nat.eqb (S j) t) <$> seq 0 n.
Proof.
  revert t s. induction n as [|n IH]; intros t s Ht; [done|].
  cbn [replicate fire_log seq fmap list_fmap exec fires].
  rewrite <- fmap_S_seq, <- list_fmap_compose.
  destruct t as [|[|t]].
  - rewrite onAudioTick_idle by lia. rewrite (IH 0) by done.
    rewrite Ht. done.
  - rewrite onAudioTick_fire by lia.
    rewrite (IH 0) by (by rewrite tickToFlush_flushOutQueue).
    rewrite Ht. cbn. f_equal.
  - rewrite onAudioTick_count by lia.
    rewrite (IH (S t)) by (cbn; lia).
    rewrite Ht. f_equal.
    destruct (Z.ltb_spec 0 (Z.of_nat (S (S t)))); [|lia].
    destruct (Z.eqb_spec (Z.of_nat (S (S t)) - 1) 0); [lia | done].
Qed.

End Countdown.

Section Scheduler.

Variable N : Z.

Lemma Flush_zero s :
  midiDelay_ s = 0%Z -> Flush N s = flushOutQueue N (set_tickToFlush 0 s).
Proof. intros H. unfold Flush. cbn. rewrite H. done. Qed.

Lemma Flush_arm s :
  midiDelay_ s <> 0%Z -> Flush N s = set_tickToFlush (midiDelay_ s) s.
Proof.
  intros H. unfold Flush. cbn.
  destruct (Z.eqb_spec (midiDelay_ s) 0); [lia | done].
Qed.

Lemma tickToFlush_Flush s : tickToFlush_ (Flush N s) = midiDelay_ s.
Proof.
  unfold Flush. cbn. destruct (midiDelay_ s =? 0)%Z; [|done].
  by rewrite tickToFlush_flushOutQueue.
Qed.

Lemma fire_log_early j k :
  j < k -> (fun i => Nat.eqb (S i) k) <$> seq 0 j = replicate j false.
Proof.
  intros H.
  transitivity (replicate (length (seq 0 j)) false);
    [|by rewrite length_seq].
  apply const_fmap.
  intros i x Hx. apply lookup_seq in Hx as [-> Hi].
  apply Nat.eqb_neq. lia.
Qed.

Lemma armed_le_1 s : armed s <= 1.
Proof. unfold armed. destruct (0 <? tickToFlush_ s)%Z; lia. Qed.

(** No run drains more often than it was armed. *)
Lemma drain_count_le_arms ops s :
  drain_count N ops s <= armed s + arms ops.
Proof.
  revert s. induction ops as [|o ops IH]; intros s; [cbn; lia|].
  specialize (IH (exec N s o)). cbn [drain_count].
  destruct o as [|m| |]; cbn [arms fires exec] in *.
  - replace (armed (AdvancePlayQueue N s)) with (armed s) in IH by done. lia.
  - replace (armed (QueueMessage m s)) with (armed s) in IH; [lia|].
    unfold QueueMessage. by destruct (outDevice_ s).
  - assert (Ha : armed (Flush N s) = if (midiDelay_ s =? 0)%Z then 0 else armed (Flush N s)).
    { unfold armed. rewrite tickToFlush_Flush.
      destruct (Z.eqb_spec (midiDelay_ s) 0) as [->|]; done. }
    pose proof (armed_le_1 (Flush N s)).
    destruct (midiDelay_ s =? 0)%Z eqn:E; rewrite ?E in Ha; lia.
  - unfold armed in *.
    destruct (Z.ltb_spec 0 (tickToFlush_ s)) as [Hpos|Hidle]; cbn [andb].
    + destruct (Z.eqb_spec (tickToFlush_ s - 1) 0) as [Hone|Hmore].
      * rewrite onAudioTick_fire in IH |- * by lia.
        rewrite tickToFlush_flushOutQueue in IH.
        cbn [tickToFlush_ set_tickToFlush] in IH. cbn [Z.ltb Z.compare] in IH. lia.
      * rewrite onAudioTick_count in IH |- * by lia.
        cbn [tickToFlush_ set_tickToFlush] in IH.
        destruct (0 <? tickToFlush_ s - 1)%Z; lia.
    + rewrite onAudioTick_idle in IH |- * by lia.
      destruct (Z.ltb_spec 0 (tickToFlush_ s)); lia.
Qed.

(** C5: [Flush] with a configured delay of 0 drains before it returns.
    With a delay of [k > 0] the state after [j < k] ticks is the state before
    the call with the countdown at [k - j] (nothing drained); after [k] ticks,
    and after any larger number, it is the state with exactly one
    [flushOutQueue] applied.  In the log of a [Flush] followed by [n] ticks
    the tick number [k] is the only one that drains.  A tick that finds the
    countdown at 0 leaves the state as it is. *)
Theorem Flush_drains_at_kth_tick (s : MidiService) (k : nat) :
  midiDelay_ s = Z.of_nat k ->
  (forall j,
     ticks N j (Flush N s) =
     if (j <? k)%nat then set_tickToFlush (Z.of_nat (k - j)) s
     else flushOutQueue N (set_tickToFlush 0 s)) /\
  (forall n,
     fire_log N (OpFlush :: replicate n OpTick) s =
     Nat.eqb k 0 :: ((fun j => Nat.eqb (S j) k) <$> seq 0 n)) /\
  (forall s', tickToFlush_ s' = 0%Z -> onAudioTick N s' = s').
Proof.
  intros Hk. split; [|split].
  - intros j. destruct k as [|k].
    + rewrite Flush_zero by done. cbn.
      apply ticks_idle. by rewrite tickToFlush_flushOutQueue.
    + rewrite Flush_arm by lia. rewrite Hk.
      destruct (Nat.ltb_spec j (S k)) as [Hlt|Hge].
      * by rewrite (ticks_before N (S k) j), set_tickToFlush_twice.
      * replace j with (S k + (j - S k)) by lia.
        by rewrite (ticks_from N (S k)), set_tickToFlush_twice by (done || lia).
  - intros n. cbn [fire_log fires exec]. f_equal.
    + rewrite Hk. by destruct k.
    + apply fire_log_ticks. by rewrite tickToFlush_Flush.
  - intros s' H. apply onAudioTick_idle. lia.
Qed.

(** C6: when the configured delay is [k > 0], [Flush] leaves the countdown
    at [k] whatever it stood at, and changes nothing else.  A second [Flush]
    made [j < k] ticks after the first discards the first countdown: the
    drain comes [k] ticks after the second call.  In every run the number of
    drains is at most the number of [Flush] calls, plus one when a countdown
    was running at the start. *)
Theorem Flush_rearm_replaces_countdown (s : MidiService) (k : nat) :
  0 < k -> midiDelay_ s = Z.of_nat k ->
  (forall t, Flush N (set_tickToFlush t s) = set_tickToFlush (Z.of_nat k) s) /\
  (forall j n, j < k ->
     fire_log N (OpFlush :: replicate j OpTick ++ OpFlush :: replicate n OpTick) s =
     false :: replicate j false ++
     false :: ((fun i => Nat.eqb (S i) k) <$> seq 0 n)) /\
  (forall ops s', drain_count N ops s' <= armed s' + arms ops).
Proof.
  intros Hpos Hk.
  assert (Hre : forall t, Flush N (set_tickToFlush t s) = set_tickToFlush (Z.of_nat k) s).
  { intros t. rewrite Flush_arm by (cbn; lia). cbn. by rewrite Hk. }
  split; [done|]. split; [|apply drain_count_le_arms].
  intros j n Hj.
  assert (Hnz : (midiDelay_ s =? 0)%Z = false) by (apply Z.eqb_neq; lia).
  cbn [fire_log fires exec]. rewrite Hnz. f_equal.
  rewrite fire_log_app, run_ticks.
  rewrite <- (set_tickToFlush_same s) at 1 2. rewrite Hre.
  rewrite (fire_log_ticks N j k) by done.
  rewrite fire_log_early by done. f_equal.
  rewrite (ticks_before N k j) by done. rewrite set_tickToFlush_twice.
  cbn [fire_log fires exec]. cbn [midiDelay_ set_tickToFlush].
  rewrite Hnz. f_equal. rewrite Hre.
  by apply fire_log_ticks.
Qed.

End Scheduler.

(** ** The ring *)

Lemma slot_get_cleared qs c : slot_get (slot_set qs c []) c = [].
Proof.
  unfold slot_get, slot_set. destruct (0 <=? c)%Z; [|done].
  destruct (decide (Z.to_nat c < length qs)) as [Hin|Hout].
  - by rewrite list_lookup_insert_eq.
  - rewrite list_insert_ge by lia. by rewrite lookup_ge_None_2 by lia.
Qed.

(** C7: with no output device bound, [flushOutQueue] makes no call at all
    (nothing is sent, nothing is logged), still moves the read cursor one
    slot forward and still empties that slot; cursors and queues end exactly
    as after the same drain with a device bound, which differs only by the
    [SendQueue] call. *)
Theorem flushOutQueue_without_device (N : Z) (s : MidiService) :
  outDevice_ s = None ->
  calls (flushOutQueue N s) = calls s /\
  currentOutQueue_ (flushOutQueue N s) = Z.rem (currentOutQueue_ s + 1) N /\
  queues_ (flushOutQueue N s) =
    slot_set (queues_ s) (Z.rem (currentOutQueue_ s + 1) N) [] /\
  slot_get (queues_ (flushOutQueue N s)) (currentOutQueue_ (flushOutQueue N s)) = [] /\
  (forall o,
     flushOutQueue N (set_outDevice (Some o) s) =
     set_outDevice (Some o)
       (out_SendQueue o (slot_get (queues_ s) (Z.rem (currentOutQueue_ s + 1) N))
          (flushOutQueue N s))).
Proof.
  intros H. destruct s as [ol il dn ind od qs pq oq md tf ss cs].
  cbn in H. subst od. cbn. repeat split. apply slot_get_cleared.
Qed.

(** C10: [Start] returns [true] and gives back the state it was given with
    both cursors at 0: every queue keeps its messages, also across
    [Stop]; [Start].  A drain that follows with a device bound sends what
    slot [1 % MIDI_MAX_BUFFERS] held before [Start]. *)
Theorem Start_resets_cursors_only (N : Z) (s : MidiService) :
  Start s =
    ({| outList := outList s; inList_ := inList_ s;
        deviceName_ := deviceName_ s; inDevice_ := inDevice_ s;
        outDevice_ := outDevice_ s; queues_ := queues_ s;
        currentPlayQueue_ := 0; currentOutQueue_ := 0;
        midiDelay_ := midiDelay_ s; tickToFlush_ := tickToFlush_ s;
        sendSync_ := sendSync_ s; calls := calls s |}, true) /\
  queues_ (Start (Stop s)).1 = queues_ s /\
  (forall o, outDevice_ s = Some o ->
     calls (flushOutQueue N (Start s).1) =
       calls s ++ [OutCall o (CSendQueue (slot_get (queues_ s) (Z.rem 1 N)))]).
Proof.
  destruct s as [ol il dn ind od qs pq oq md tf ss cs].
  split; [done|]. split; [by destruct od|].
  intros o H. cbn in H. subst od. done.
Qed.

(** C1 (as the code behaves): with an output device bound, a delay of 2 and
    four slots, the sequence AdvancePlayQueue; QueueMessage a;
    AdvancePlayQueue; QueueMessage b; Flush; onAudioTick; onAudioTick run
    after [Start] drains once, at the second tick, and the batch given to
    [SendQueue] is [a], the content of slot 1; [b] is still in slot 2. *)
Theorem scenario_sends_first_step (s : MidiService) (o : nat) (a b : MidiMessage) :
  outDevice_ s = Some o -> midiDelay_ s = 2%Z -> length (queues_ s) = 4 ->
  fire_log 4 (scenario a b) (Start s).1 =
    [false; false; false; false; false; false; true] /\
  drain_count 4 (scenario a b) (Start s).1 = 1 /\
  calls (run 4 (scenario a b) (Start s).1) =
    calls s ++ [OutCall o (CSendQueue [a])] /\
  slot_get (queues_ (run 4 (scenario a b) (Start s).1)) 2 = [b].
Proof.
  intros Ho Hd Hlen. destruct s as [ol il dn ind od qs pq oq md tf ss cs].
  cbn in Ho, Hd, Hlen. subst od md.
  destruct qs as [|q0 [|q1 [|q2 [|q3 [|q4 qs]]]]]; try discriminate.
  destruct a, b. done.
Qed.

Section Ring.

Variable N : Z.

Lemma lost_app a b s : lost N (a ++ b) s = lost N a s ++ lost N b (run N a s).
Proof.
  revert s. induction a as [|o a IH]; intros s; [done|].
  cbn [app lost]. rewrite IH. by rewrite <- app_assoc.
Qed.

Lemma lost_no_advance ops s :
  Forall (fun o => o <> OpAdvance) ops -> lost N ops s = [].
Proof.
  intros H. revert s. induction H as [|o ops Ho _ IH]; intros s; [done|].
  cbn [lost]. rewrite IH. destruct o; [done | | |]; by destruct (overwritten N s).
Qed.

Lemma item_ops_no_advance its :
  Forall (fun o => o <> OpAdvance) (item_op <$> its).
Proof. apply Forall_fmap, Forall_true. by intros []. Qed.

Lemma Flush_then_ticks s k n :
  midiDelay_ s = Z.of_nat k -> k <= n ->
  ticks N n (Flush N s) = flushOutQueue N (set_tickToFlush 0 s).
Proof.
  intros Hk Hn. destruct k as [|k].
  - rewrite Flush_zero by done. apply ticks_idle.
    by rewrite tickToFlush_flushOutQueue.
  - rewrite Flush_arm by lia. rewrite Hk.
    replace n with (S k + (n - S k)) by lia.
    by rewrite (ticks_from N (S k)), set_tickToFlush_twice by (done || lia).
Qed.

Lemma AdvancePlayQueue_in_step s :
  AdvancePlayQueue N s = in_step (Z.rem (currentPlayQueue_ s + 1) N) [] s.
Proof. done. Qed.

Lemma settled_length s : settled N s -> length (queues_ s) = Z.to_nat N.
Proof. intros [-> _ _ _ _ _]. apply length_replicate. Qed.

Lemma run_items p acc its s :
  settled N s -> (0 <= p < N)%Z ->
  run N (item_op <$> its) (in_step p acc s) =
  in_step p (acc ++ omap (fun it => match it with Enq m => Some m | MidTick => None end) its) s.
Proof.
  intros Hs Hp. revert acc. induction its as [|it its IH]; intros acc.
  - cbn. by rewrite app_nil_r.
  - pose proof (settled_length s Hs) as Hlen.
    destruct Hs as [_ _ _ Htick _ [o Ho]].
    destruct it as [m|]; rewrite fmap_cons, run_cons;
      cbn [exec item_op omap list_omap].
    + replace (QueueMessage m (in_step p acc s)) with (in_step p (acc ++ [m]) s).
      * rewrite IH. by rewrite <- app_assoc.
      * unfold QueueMessage, in_step. cbn. rewrite Ho.
        rewrite slot_get_set by lia. rewrite slot_set_set.
        by rewrite MidiMessage_copy.
    + rewrite onAudioTick_idle by (cbn; lia). apply IH.
Qed.

Lemma sent_snoc_send tr o batch :
  sent (tr ++ [OutCall o (CSendQueue batch)]) = sent tr ++ [batch].
Proof. unfold sent. by rewrite omap_app. Qed.

End Ring.

(** ** Steps whose drain may fire inside the next step *)

(** ** Steps whose countdown ends before the next [Flush] *)

Lemma rem_succ_ne N q : (2 <= N)%Z -> (0 <= q < N)%Z -> Z.rem (q + 1) N <> q.
Proof.
  intros HN Hq. destruct (decide (q + 1 = N)%Z) as [Heq|Hne].
  - rewrite Heq, Z.rem_same by lia. lia.
  - rewrite Z.rem_small by lia. lia.
Qed.

Lemma slot_set_comm qs c1 c2 x y :
  c1 <> c2 ->
  slot_set (slot_set qs c1 x) c2 y = slot_set (slot_set qs c2 y) c1 x.
Proof.
  intros Hne. unfold slot_set.
  destruct (Z.leb_spec 0 c1), (Z.leb_spec 0 c2); try done.
  apply list_insert_insert_ne. lia.
Qed.

Lemma settled_drained N o pm g :
  (0 < N)%Z -> settled N g -> outDevice_ g = Some o ->
  settled N (drained N o pm g).
Proof.
  intros HN [Hq Hp Hout Ht Hd Hdev] Ho.
  constructor; cbn; try done. by apply rem_succ_range.
Qed.

Lemma flush_in_step N o q acc g :
  settled N g -> outDevice_ g = Some o -> q = Z.rem (currentPlayQueue_ g + 1) N ->
  (0 <= q < N)%Z ->
  flushOutQueue N (set_tickToFlush 0 (in_step q acc g)) = drained N o acc g.
Proof.
  intros Hs Ho -> Hq. pose proof (settled_length N g Hs) as Hlen.
  destruct Hs as [Hqs Hp Hout Ht Hd _].
  destruct g as [ol il dn ind od qs pq oq md tf ss cs].
  cbn in *. subst od oq tf. unfold in_step, flushOutQueue, drained. cbn.
  rewrite slot_get_set by lia. rewrite slot_set_set.
  by rewrite (slot_set_empty_ring _ _ _ Hqs).
Qed.

(** From inside a step of a settled ring to the end of the ticks that
    follow its [Flush]. *)
Lemma step_finish N o its t acc g :
  (0 < N)%Z -> settled N g -> outDevice_ g = Some o ->
  run N ((item_op <$> its) ++ OpFlush :: replicate t OpTick)
    (in_step (Z.rem (currentPlayQueue_ g + 1) N) acc g) =
  flight N
    (if Nat.leb (Z.to_nat (midiDelay_ g)) t
     then drained N o (acc ++ cycle_msgs (mkCycle its t)) g else g)
    (Z.to_nat (midiDelay_ g) - t) (acc ++ cycle_msgs (mkCycle its t)).
Proof.
  intros HN Hs Ho. pose proof Hs as [Hqs Hp Hout Ht Hd _].
  pose proof (rem_succ_range N _ Hp) as Hq.
  rewrite run_app, run_items by done. rewrite run_cons, run_ticks. cbn [exec].
  unfold cycle_msgs. cbn [items].
  set (ms := acc ++ omap _ its).
  destruct (Nat.leb_spec (Z.to_nat (midiDelay_ g)) t) as [Hle|Hlt].
  - rewrite (Flush_then_ticks N _ (Z.to_nat (midiDelay_ g))) by (cbn; lia).
    replace (Z.to_nat (midiDelay_ g) - t) with 0 by lia. cbn [flight].
    by apply flush_in_step.
  - rewrite Flush_arm by (cbn; lia).
    rewrite (ticks_before N (Z.to_nat (midiDelay_ g))) by (cbn; lia).
    rewrite set_tickToFlush_twice.
    destruct (Z.to_nat (midiDelay_ g) - t) as [|n] eqn:Hn; [lia|]. done.
Qed.

(** The same from a ring in which the step before still waits for its
    drain: the drain comes with a tick inside the step. *)
Lemma step_finish_in_flight N o pm its t g :
  (2 <= N)%Z -> settled N g -> outDevice_ g = Some o ->
  forall r acc, 0 < r -> r <= mid_ticks its ->
  run N ((item_op <$> its) ++ OpFlush :: replicate t OpTick)
    (set_tickToFlush (Z.of_nat r)
       (in_step (Z.rem (Z.rem (currentPlayQueue_ g + 1) N + 1) N) acc
          (in_step (Z.rem (currentPlayQueue_ g + 1) N) pm g))) =
  flight N
    (if Nat.leb (Z.to_nat (midiDelay_ g)) t
     then drained N o (acc ++ cycle_msgs (mkCycle its t)) (drained N o pm g)
     else drained N o pm g)
    (Z.to_nat (midiDelay_ g) - t) (acc ++ cycle_msgs (mkCycle its t)).
Proof.
  intros HN Hs Ho. pose proof (settled_length N g Hs) as Hlen.
  pose proof Hs as [Hqs Hp Hout Ht Hd _].
  pose proof (rem_succ_range N _ Hp) as Hq.
  pose proof (rem_succ_range N _ Hq) as Hq2.
  pose proof (rem_succ_ne N _ HN Hq) as Hne.
  set (q := Z.rem (currentPlayQueue_ g + 1) N) in *.
  set (q2 := Z.rem (q + 1) N) in *.
  induction its as [|it its IH]; intros r acc Hr Hm; [cbn in Hm; lia|].
  destruct it as [m|]; rewrite fmap_cons; cbn [app]; rewrite run_cons;
    cbn [exec item_op].
  - replace (QueueMessage m (set_tickToFlush (Z.of_nat r) (in_step q2 acc (in_step q pm g))))
      with (set_tickToFlush (Z.of_nat r) (in_step q2 (acc ++ [m]) (in_step q pm g))).
    + rewrite IH by done. unfold cycle_msgs. cbn.
      by rewrite <- !app_assoc.
    + unfold QueueMessage, in_step. cbn. rewrite Ho.
      rewrite slot_get_set by (rewrite length_slot_set; lia).
      rewrite slot_set_set. by rewrite MidiMessage_copy.
  - cbn [mid_ticks] in Hm. destruct (decide (r = 1)) as [->|Hr1].
    + rewrite onAudioTick_fire by done. rewrite set_tickToFlush_twice.
      replace (flushOutQueue N (set_tickToFlush 0 (in_step q2 acc (in_step q pm g))))
        with (in_step q2 acc (drained N o pm g)).
      * assert (Hg1 : settled N (drained N o pm g))
          by (apply settled_drained; [lia | done | done]).
        pose proof (step_finish N o its t acc (drained N o pm g)
                      ltac:(lia) Hg1 Ho) as Hfin.
        exact Hfin.
      * destruct g as [ol il dn ind od qs pq oq md tf ss cs].
        cbn in *. subst od oq tf. unfold in_step, flushOutQueue, drained. cbn.
        fold q. rewrite slot_get_set_ne by done.
        rewrite slot_get_set by lia.
        rewrite (slot_set_comm _ q2 q) by done.
        rewrite slot_set_set, (slot_set_empty_ring _ _ _ Hqs). done.
    + rewrite onAudioTick_count by (cbn; lia). rewrite set_tickToFlush_twice.
      replace (tickToFlush_
                 (set_tickToFlush (Z.of_nat r) (in_step q2 acc (in_step q pm g))) - 1)%Z
        with (Z.of_nat (r - 1)) by (cbn; lia).
      exact (IH (r - 1) acc ltac:(lia) ltac:(lia)).
Qed.

Lemma calls_drained N o pm g :
  calls (drained N o pm g) = calls g ++ [OutCall o (CSendQueue pm)].
Proof. done. Qed.

Lemma paced_cycle N o g r pm c :
  (0 < N)%Z -> settled N g -> outDevice_ g = Some o ->
  (r = 0 \/ (2 <= N)%Z) -> r <= mid_ticks (items c) ->
  run N (cycle_ops c) (flight N g r pm) =
    flight N
      (if Nat.leb (Z.to_nat (midiDelay_ g)) (ticks_after c)
       then drained N o (cycle_msgs c)
              (match r with O => g | S _ => drained N o pm g end)
       else match r with O => g | S _ => drained N o pm g end)
      (Z.to_nat (midiDelay_ g) - ticks_after c) (cycle_msgs c) /\
  lost N (cycle_ops c) (flight N g r pm) = [].
Proof.
  intros HN Hs Ho HrN Hm. pose proof Hs as [Hqs Hp Hout Ht Hd _].
  pose proof (settled_length N g Hs) as Hlen.
  pose proof (rem_succ_range N _ Hp) as Hq.
  assert (Hrest : forall x,
            lost N ((item_op <$> items c) ++ OpFlush :: replicate (ticks_after c) OpTick) x = []).
  { intros x. apply lost_no_advance. apply Forall_app. split.
    - apply item_ops_no_advance.
    - constructor; [done|]. by apply Forall_replicate. }
  destruct c as [its t]. cbn [items ticks_after] in *. unfold cycle_ops.
  cbn [items ticks_after]. rewrite run_cons. cbn [exec lost].
  destruct r as [|r]; cbn [flight].
  - split.
    + rewrite AdvancePlayQueue_in_step.
      exact (step_finish N o its t [] g HN Hs Ho).
    + rewrite Hrest, app_nil_r. unfold overwritten.
      by rewrite Hqs, slot_get_replicate.
  - destruct HrN as [|HN2]; [done|].
    pose proof (rem_succ_ne N _ HN2 Hq) as Hne.
    split.
    + exact (step_finish_in_flight N o pm its t g HN2 Hs Ho (S r) []
               ltac:(lia) Hm).
    + rewrite Hrest, app_nil_r. unfold overwritten, in_step. cbn.
      rewrite slot_get_set_ne by done.
      by rewrite Hqs, slot_get_replicate.
Qed.

Lemma paced_cycles N o cycles :
  forall g r pm,
  settled N g -> outDevice_ g = Some o -> (midiDelay_ g + 1 <= N)%Z ->
  r <= Z.to_nat (midiDelay_ g) ->
  paced (Z.to_nat (midiDelay_ g)) r cycles = true ->
  exists g' r' pm',
    run N (concat (cycle_ops <$> cycles)) (flight N g r pm) = flight N g' r' pm' /\
    settled N g' /\
    lost N (concat (cycle_ops <$> cycles)) (flight N g r pm) = [] /\
    sent (calls g') ++ match r' with O => [] | S _ => [pm'] end =
      (sent (calls g) ++ match r with O => [] | S _ => [pm] end) ++
      (cycle_msgs <$> cycles).
Proof.
  induction cycles as [|c cycles IH]; intros g r pm Hs Ho HN Hr Hp.
  - exists g, r, pm. cbn. by rewrite app_nil_r.
  - cbn [paced] in Hp. apply andb_true_iff in Hp as [Hm Hp].
    apply Nat.leb_le in Hm.
    pose proof Hs as [_ _ _ _ Hd _].
    assert (HN0 : (0 < N)%Z) by lia.
    assert (HrN : r = 0 \/ (2 <= N)%Z) by lia.
    destruct (paced_cycle N o g r pm c HN0 Hs Ho HrN Hm) as [Hrun Hlost].
    set (g1 := match r with O => g | S _ => drained N o pm g end) in *.
    assert (Hg1 : settled N g1).
    { unfold g1. destruct r; [done|]. by apply settled_drained. }
    set (g2 := if Nat.leb (Z.to_nat (midiDelay_ g)) (ticks_after c)
               then drained N o (cycle_msgs c) g1 else g1) in *.
    assert (Hg2 : settled N g2).
    { unfold g2. destruct (Nat.leb _ _); [|done].
      apply settled_drained; [done | done |]. unfold g1. by destruct r. }
    assert (Hd2 : midiDelay_ g2 = midiDelay_ g).
    { unfold g2, g1. by destruct (Nat.leb _ _), r. }
    assert (Ho2 : outDevice_ g2 = Some o).
    { unfold g2, g1. by destruct (Nat.leb _ _), r. }
    destruct (IH g2 (Z.to_nat (midiDelay_ g) - ticks_after c) (cycle_msgs c))
      as (g' & r' & pm' & Hrun' & Hs' & Hlost' & Hsent'); try done.
    { by rewrite Hd2. }
    { rewrite Hd2. lia. }
    { by rewrite Hd2. }
    exists g', r', pm'.
    cbn [fmap list_fmap concat]. fold (cycle_ops <$> cycles).
    rewrite run_app, lost_app, Hrun, Hlost, Hrun', Hlost'.
    split; [done|]. split; [done|]. split; [done|].
    rewrite Hsent'.
    assert (Hstep :
      sent (calls g2) ++
        match Z.to_nat (midiDelay_ g) - ticks_after c with
        | O => [] | S _ => [cycle_msgs c] end =
      (sent (calls g) ++ match r with O => [] | S _ => [pm] end) ++
        [cycle_msgs c]).
    { unfold g2, g1.
      destruct (Nat.leb_spec (Z.to_nat (midiDelay_ g)) (ticks_after c)) as [Hle|Hlt].
      - replace (Z.to_nat (midiDelay_ g) - ticks_after c) with 0 by lia.
        destruct r; rewrite ?calls_drained, ?sent_snoc_send, ?app_nil_r; done.
      - destruct (Z.to_nat (midiDelay_ g) - ticks_after c) as [|n] eqn:Hn; [lia|].
        destruct r; rewrite ?calls_drained, ?sent_snoc_send, ?app_nil_r; done. }
    rewrite Hstep, <- !app_assoc. done.
Qed.

(** C2 (as the code behaves): for every delay [d >= 0] and ring size [N]
    with [d + 1 <= N], from a settled ring, and for every interleaving of
    playback steps with audio ticks in which at least [d] ticks fall between
    each [Flush] and the next [Flush] (wherever they fall: after the step or
    inside the next one), no [AdvancePlayQueue] empties a queue that still
    holds messages, and the messages of the steps are sent step by step, each
    as one batch, in order.  Only the last step may still wait, whole, in the
    slot of the write cursor while its countdown runs; once the countdown is
    over the ring is settled again. *)
Theorem paced_steps_lose_nothing (N : Z) (s : MidiService) (cycles : list Cycle) :
  settled N s -> (midiDelay_ s + 1 <= N)%Z ->
  paced (Z.to_nat (midiDelay_ s)) 0 cycles = true ->
  lost N (concat (cycle_ops <$> cycles)) s = [] /\
  sent (calls (run N (concat (cycle_ops <$> cycles)) s)) ++
    (if (0 <? tickToFlush_ (run N (concat (cycle_ops <$> cycles)) s))%Z
     then [slot_get (queues_ (run N (concat (cycle_ops <$> cycles)) s))
             (currentPlayQueue_ (run N (concat (cycle_ops <$> cycles)) s))]
     else []) =
  sent (calls s) ++ (cycle_msgs <$> cycles) /\
  (tickToFlush_ (run N (concat (cycle_ops <$> cycles)) s) = 0%Z ->
   settled N (run N (concat (cycle_ops <$> cycles)) s)).
Proof.
  intros Hs HN Hp. pose proof Hs as [_ _ _ _ Hd [o Ho]].
  destruct (paced_cycles N o cycles s 0 [] Hs Ho HN ltac:(lia) Hp)
    as (g' & r' & pm' & Hrun & Hs' & Hlost & Hsent).
  cbn [flight] in Hrun, Hlost. rewrite Hrun. split; [done|].
  rewrite app_nil_r in Hsent. rewrite <- Hsent.
  pose proof Hs' as [Hqs' Hp' _ Ht' _ _].
  pose proof (settled_length N g' Hs') as Hlen.
  pose proof (rem_succ_range N _ Hp') as Hq.
  destruct r' as [|r']; cbn [flight].
  - by rewrite Ht'.
  - split.
    + cbn. rewrite slot_get_set by lia. done.
    + cbn. lia.
Qed.

(** ** Configuration *)

Lemma leading_integer_no_number v :
  no_leading_number v = true -> leading_integer v = 0%Z.
Proof.
  destruct v as [|c r]; [done|].
  destruct c as [[] [] [] [] [] [] [] []]; cbn; intros H;
    first [discriminate H | reflexivity].
Qed.

Lemma atoi_no_leading_number v : no_leading_number v = true -> atoi v = 0%Z.
Proof.
  intros H. unfold atoi, strtol. by rewrite leading_integer_no_number.
Qed.

Lemma to_int_range z : (INT_MIN <= to_int z <= INT_MAX)%Z.
Proof.
  unfold to_int, INT_MIN, INT_MAX.
  pose proof (Z.mod_pos_bound (z + 2147483648) 4294967296). lia.
Qed.

Lemma to_int_fits z : (INT_MIN <= z <= INT_MAX)%Z -> to_int z = z.
Proof.
  unfold to_int, INT_MIN, INT_MAX. intros H.
  rewrite Z.mod_small by lia. lia.
Qed.

Lemma atoi_fits v :
  (INT_MIN <= leading_integer v <= INT_MAX)%Z -> atoi v = leading_integer v.
Proof.
  intros H. unfold atoi, strtol.
  assert (Hl : Z.max LONG_MIN (Z.min LONG_MAX (leading_integer v)) =
               leading_integer v).
  { unfold INT_MIN, INT_MAX, LONG_MIN, LONG_MAX in *. lia. }
  rewrite Hl. by apply to_int_fits.
Qed.

(** C3 (as the code behaves): when MIDIDELAY is set, the configured delay is
    [atoi] of its text, well formed or not, and the default is not used: the
    delay is the integer the text starts with when that fits an [int], and 0
    when the text starts with no number. *)
Theorem malformed_MIDIDELAY_is_atoi (N : Z) (config : Config)
    (u : Indeterminate) (v : string) :
  config "MIDIDELAY" = Some v ->
  midiDelay_ (MidiService_new N config u) = atoi v /\
  (INT_MIN <= midiDelay_ (MidiService_new N config u) <= INT_MAX)%Z /\
  ((INT_MIN <= leading_integer v <= INT_MAX)%Z ->
   midiDelay_ (MidiService_new N config u) = leading_integer v) /\
  (no_leading_number v = true -> midiDelay_ (MidiService_new N config u) = 0%Z).
Proof.
  intros H. cbn [midiDelay_ MidiService_new]. rewrite H.
  split; [done|]. split; [apply to_int_range|].
  split; [apply atoi_fits | apply atoi_no_leading_number].
Qed.

Lemma absent_MIDIDELAY_is_1 N config u :
  config "MIDIDELAY" = None -> midiDelay_ (MidiService_new N config u) = 1%Z.
Proof. intros H. cbn. by rewrite H. Qed.

(** ** Teardown *)

Lemma inDevice_Stop s : inDevice_ (Stop s) = inDevice_ s.
Proof. by destruct s as [? ? ? ? [o|] ? ? ? ? ? ? ?]. Qed.

(** C9: [Close] calls [Stop] and [Close] on the input device without
    testing the pointer.  With no input device bound it reaches the
    dereference of a null pointer, in particular on a service that was just
    constructed; with one bound it stops and closes that device. *)
Theorem Close_needs_input_device (s : MidiService) :
  (inDevice_ s = None -> Close s = NullDeref) /\
  (forall i, inDevice_ s = Some i ->
     Close s = Ok (in_Close i (in_Stop i (Stop s)))) /\
  (forall N config u, Close (MidiService_new N config u) = NullDeref).
Proof.
  unfold Close. rewrite inDevice_Stop. repeat split.
  - by intros ->.
  - by intros i ->.
Qed.

(** ** Selecting the input device *)

Lemma fmap_name_insert (l : list MidiDevice) k d' :
  dev_name <$> l !! k = Some (dev_name d') ->
  dev_name <$> <[k := d']> l = dev_name <$> l.
Proof.
  intros H. rewrite list_fmap_insert. apply list_insert_id.
  by rewrite list_lookup_fmap.
Qed.

Lemma fmap_name_alter (f : MidiDevice -> MidiDevice) (l : list MidiDevice) k :
  (forall d, dev_name (f d) = dev_name d) ->
  dev_name <$> alter f k l = dev_name <$> l.
Proof.
  intros Hf. apply list_eq. intros j. rewrite !list_lookup_fmap.
  rewrite list_lookup_alter. destruct (decide (k = j)) as [->|]; [|done].
  destruct (l !! j) as [d|]; cbn; [|done]. by rewrite Hf.
Qed.

Lemma dev_name_Stop d : dev_name (dev_Stop d) = dev_name d.
Proof. unfold dev_Stop. by destruct (dev_state d). Qed.

Lemma in_GetName_names i s : in_GetName i s = default "" (in_names s !! i).
Proof.
  unfold in_GetName, in_names. rewrite list_lookup_fmap.
  by destruct (inList_ s !! i).
Qed.

Lemma selecting_refl s : selecting s s.
Proof.
  constructor; try done.
  - exists []. by rewrite app_nil_r.
  - by left.
Qed.

Lemma selecting_trans a b c : selecting a b -> selecting b c -> selecting a c.
Proof.
  intros [Hn1 Hm1 (t1 & Hc1 & Hf1) Ho1 Hb1] [Hn2 Hm2 (t2 & Hc2 & Hf2) Ho2 Hb2].
  constructor.
  - congruence.
  - congruence.
  - exists (t1 ++ t2). split.
    + by rewrite Hc2, Hc1, <- app_assoc.
    + apply Forall_app. split; [done|].
      eapply Forall_impl; [|exact Hf2].
      intros [j cl|j cl|tag text]; cbn; try done. by rewrite Hm1, Hn1.
  - intros j Hj. rewrite Ho2, Ho1; [done | done |]. by rewrite Hm1, Hn1.
  - intros j Hj. destruct (Hb2 j Hj) as [H|H].
    + by apply Hb1.
    + right. by rewrite <- Hm1, <- Hn1.
Qed.

Lemma selecting_visit s k : selecting s (select_visit s k).
Proof.
  unfold select_visit.
  destruct (inList_ s !! k) as [d|] eqn:Hk; [|apply selecting_refl].
  destruct (String.eqb_spec (deviceName_ s) (dev_name d)) as [Hname|];
    [|apply selecting_refl].
  assert (Hnamed : in_names s !! k = Some (deviceName_ s)).
  { unfold in_names. by rewrite list_lookup_fmap, Hk, Hname. }
  assert (Hlt : k < length (inList_ s)) by (by eapply lookup_lt_Some).
  unfold in_Init. rewrite Hk.
  destruct s as [ol il dn ind od qs pq oq md tf ss cs].
  destruct d as [nm iok sok st]. cbn in *. subst dn.
  unfold dev_Init, in_Start, in_Close, emit. destruct iok; cbn.
  - rewrite list_lookup_insert_eq by done.
    unfold dev_Start. destruct sok; cbn; rewrite ?list_insert_insert_eq.
    + constructor; cbn; try done.
      * unfold in_names. cbn. apply fmap_name_insert.
        by rewrite Hk.
      * eexists [_; _; _]. split; [by rewrite <- !app_assoc|].
        repeat constructor; done.
      * intros j Hj. apply list_lookup_insert_ne. congruence.
      * intros j [= <-]. by right.
    + constructor; cbn; try done.
      * unfold in_names. cbn.
        rewrite fmap_name_alter by done. apply fmap_name_insert.
        by rewrite Hk.
      * eexists [_; _; _; _]. split; [by rewrite <- !app_assoc|].
        repeat constructor; done.
      * intros j Hj. rewrite list_lookup_alter_ne by congruence.
        apply list_lookup_insert_ne. congruence.
      * intros j [= <-]. by right.
  - constructor; cbn; try done.
    + unfold in_names. cbn. apply fmap_name_insert.
      by rewrite Hk.
    + eexists [_]. split; [done|]. repeat constructor; done.
    + intros j Hj. apply list_lookup_insert_ne. congruence.
    + intros j Hj. by left.
Qed.

Lemma selecting_loop s ks : selecting s (foldl select_visit s ks).
Proof.
  revert s. induction ks as [|k ks IH]; intros s; [apply selecting_refl|].
  cbn. eapply selecting_trans; [apply selecting_visit | apply IH].
Qed.

(** A device whose [Init] succeeds and whose [Start] fails is closed again
    by the loop, and the loop leaves [inDevice_] pointing at it. *)
Lemma select_visit_start_failure s k d :
  inList_ s !! k = Some d -> deviceName_ s = dev_name d ->
  dev_init_ok d = true -> dev_start_ok d = false ->
  inDevice_ (select_visit s k) = Some k /\
  dev_state <$> inList_ (select_visit s k) !! k = Some DevClosed.
Proof.
  intros Hk Hname Hi Hs.
  assert (Hlt : k < length (inList_ s)) by (by eapply lookup_lt_Some).
  unfold select_visit, in_Init. rewrite Hk, Hname, String.eqb_refl.
  unfold dev_Init. rewrite Hi. cbn.
  unfold in_Start. cbn. rewrite list_lookup_insert_eq by done.
  unfold dev_Start. cbn. rewrite Hs. cbn. split; [done|].
  rewrite list_lookup_alter_eq, list_lookup_insert_eq by (by rewrite length_insert).
  done.
Qed.

Lemma selecting_search s : selecting s (select_search s).
Proof.
  unfold select_search.
  pose proof (selecting_loop s (seq 0 (length (inList_ s)))) as H.
  destruct (inDevice_ (foldl select_visit s (seq 0 (length (inList_ s)))))
    as [j|] eqn:Hj; [done|].
  eapply selecting_trans; [exact H|].
  constructor; cbn; try done.
  - eexists [_]. split; [done|]. by repeat constructor.
  - intros j. by left.
Qed.

Lemma SelectDevice_skip name s i :
  inDevice_ s = Some i -> in_GetName i s = name ->
  SelectDevice name s = set_deviceName name s.
Proof.
  intros Hi Hn. unfold SelectDevice. cbn. rewrite Hi.
  replace (in_GetName i (set_deviceName name s)) with name by done.
  rewrite String.eqb_refl. cbn. by rewrite Hi.
Qed.

Lemma SelectDevice_unbound name s :
  inDevice_ s = None ->
  SelectDevice name s = select_search (set_deviceName name s).
Proof. intros Hi. unfold SelectDevice. cbn. by rewrite Hi. Qed.

Lemma SelectDevice_other name s i :
  inDevice_ s = Some i -> in_GetName i s <> name ->
  SelectDevice name s =
  select_search (set_inDevice None (in_Close i (in_Stop i (set_deviceName name s)))).
Proof.
  intros Hi Hn. unfold SelectDevice. cbn. rewrite Hi.
  replace (in_GetName i (set_deviceName name s)) with (in_GetName i s) by done.
  destruct (String.eqb_spec name (in_GetName i s)) as [->|_]; done.
Qed.

(** After [SelectDevice], a bound input device bears the requested name. *)
Lemma SelectDevice_bound name s i :
  inDevice_ (SelectDevice name s) = Some i ->
  in_GetName i (SelectDevice name s) = name /\
  deviceName_ (SelectDevice name s) = name.
Proof.
  assert (Hsearch : forall s1, deviceName_ s1 = name -> inDevice_ s1 = None ->
            inDevice_ (select_search s1) = Some i ->
            in_GetName i (select_search s1) = name /\
            deviceName_ (select_search s1) = name).
  { intros s1 Hdn Hnone Hi.
    destruct (selecting_search s1) as [Hn Hm _ _ Hb].
    destruct (Hb i Hi) as [H|H]; [congruence|].
    by rewrite in_GetName_names, Hm, H, Hn. }
  destruct (inDevice_ s) as [i0|] eqn:Hi0.
  - destruct (decide (in_GetName i0 s = name)) as [Heq|Hne].
    + rewrite (SelectDevice_skip name s i0) by done. cbn.
      rewrite Hi0. by intros [= <-].
    + rewrite (SelectDevice_other name s i0) by done. by apply Hsearch.
  - rewrite SelectDevice_unbound by done. by apply Hsearch.
Qed.

Lemma select_visit_only s j k :
  j <> k -> inList_ (select_visit s j) !! k = inList_ s !! k.
Proof.
  intros Hne. unfold select_visit.
  destruct (inList_ s !! j) as [d|] eqn:Hj; [|done].
  destruct (String.eqb (deviceName_ s) (dev_name d)); [|done].
  unfold in_Init. rewrite Hj.
  destruct s as [ol il dn ind od qs pq oq md tf ss cs].
  destruct d as [nm iok sok st]. cbn in *.
  assert (Hlt : j < length il) by (by eapply lookup_lt_Some).
  unfold dev_Init, in_Start, in_Close, emit. destruct iok; cbn.
  - rewrite list_lookup_insert_eq by done.
    unfold dev_Start. destruct sok; cbn; rewrite ?list_insert_insert_eq.
    + by apply list_lookup_insert_ne.
    + rewrite list_lookup_alter_ne by done. by apply list_lookup_insert_ne.
  - by apply list_lookup_insert_ne.
Qed.

Lemma select_loop_only ks s k :
  k ∉ ks -> inList_ (foldl select_visit s ks) !! k = inList_ s !! k.
Proof.
  revert s. induction ks as [|j ks IH]; intros s Hk; [done|].
  apply not_elem_of_cons in Hk as [Hne Hk]. cbn.
  rewrite IH by done. by apply select_visit_only.
Qed.

(** The turn of the loop at a device of the requested name whose [Init] and
    [Start] succeed: the device is bound and running. *)
Lemma select_visit_started s k d :
  inList_ s !! k = Some d -> dev_name d = deviceName_ s ->
  dev_init_ok d = true -> dev_start_ok d = true ->
  inDevice_ (select_visit s k) = Some k /\
  inList_ (select_visit s k) !! k = Some (dev_with_state DevRunning d) /\
  deviceName_ (select_visit s k) = deviceName_ s /\
  calls (select_visit s k) =
    calls s ++ [InCall k CInit; InCall k CStart;
                TraceLog "MIDI"
                  ("Controlling activated for MIDI interface " +:+ dev_name d)].
Proof.
  intros Hk Hname Hi Hs.
  assert (Hlt : k < length (inList_ s)) by (by eapply lookup_lt_Some).
  unfold select_visit, in_Init. rewrite Hk, Hname, String.eqb_refl.
  unfold dev_Init. rewrite Hi. cbn.
  unfold in_Start. cbn. rewrite list_lookup_insert_eq by done.
  unfold dev_Start. cbn. rewrite Hs. cbn.
  rewrite list_insert_insert_eq, list_lookup_insert_eq by done.
  rewrite <- !app_assoc. done.
Qed.

(** The turn of the loop at a device that bears another name, or whose
    [Init] fails: no device changes and the binding stays. *)
Lemma select_visit_passes s j :
  (forall d', inList_ s !! j = Some d' -> dev_name d' = deviceName_ s ->
              dev_init_ok d' = false) ->
  inList_ (select_visit s j) = inList_ s /\
  inDevice_ (select_visit s j) = inDevice_ s /\
  deviceName_ (select_visit s j) = deviceName_ s /\
  exists t, calls (select_visit s j) = calls s ++ t.
Proof.
  intros H. unfold select_visit.
  destruct (inList_ s !! j) as [d|] eqn:Hj;
    [|repeat split; try done; exists []; by rewrite app_nil_r].
  destruct (String.eqb_spec (deviceName_ s) (dev_name d)) as [Hname|];
    [|repeat split; try done; exists []; by rewrite app_nil_r].
  specialize (H d eq_refl (eq_sym Hname)).
  unfold in_Init. rewrite Hj. unfold dev_Init. rewrite H. cbn.
  rewrite list_insert_id by done. repeat split; try done. by eexists [_].
Qed.

Lemma select_loop_passes ks :
  forall s,
  Forall (fun j => forall d', inList_ s !! j = Some d' ->
                     dev_name d' = deviceName_ s -> dev_init_ok d' = false) ks ->
  inList_ (foldl select_visit s ks) = inList_ s /\
  inDevice_ (foldl select_visit s ks) = inDevice_ s /\
  deviceName_ (foldl select_visit s ks) = deviceName_ s /\
  exists t, calls (foldl select_visit s ks) = calls s ++ t.
Proof.
  induction ks as [|j ks IH]; intros s H.
  - repeat split; try done. exists []. by rewrite app_nil_r.
  - inversion H as [|j' ks' Hj Hks]; subst j' ks'. cbn [foldl].
    destruct (select_visit_passes s j Hj) as (Hl & Hi & Hn & t & Hc).
    destruct (IH (select_visit s j)) as (Hl' & Hi' & Hn' & t' & Hc').
    { eapply Forall_impl; [|exact Hks]. intros j' Hj'. cbn.
      by rewrite Hl, Hn. }
    repeat split; try congruence.
    exists (t ++ t'). by rewrite Hc', Hc, <- app_assoc.
Qed.

(** The search of [SelectDevice] binds the last device of the requested
    name whose [Init] succeeds; when its [Start] succeeds too it ends
    running, opened and started in that order. *)
Lemma select_search_started s k d :
  inList_ s !! k = Some d -> dev_name d = deviceName_ s ->
  dev_init_ok d = true -> dev_start_ok d = true ->
  (forall j d', k < j -> inList_ s !! j = Some d' ->
     dev_name d' = deviceName_ s -> dev_init_ok d' = false) ->
  inDevice_ (select_search s) = Some k /\
  inList_ (select_search s) !! k = Some (dev_with_state DevRunning d) /\
  exists t1 t2,
    calls (select_search s) =
      calls s ++ t1 ++
        [InCall k CInit; InCall k CStart;
         TraceLog "MIDI"
           ("Controlling activated for MIDI interface " +:+ deviceName_ s)] ++ t2.
Proof.
  intros Hk Hname Hi Hs Hlast.
  assert (Hlt : k < length (inList_ s)) by (by eapply lookup_lt_Some).
  unfold select_search.
  replace (length (inList_ s)) with (k + S (length (inList_ s) - S k)) by lia.
  rewrite seq_app, Nat.add_0_l. cbn [seq]. rewrite foldl_app. cbn [foldl].
  set (sA := foldl select_visit s (seq 0 k)).
  destruct (selecting_loop s (seq 0 k)) as [HnA _ (t1 & HcA & _) _ _].
  fold sA in HnA, HcA.
  assert (HkA : inList_ sA !! k = Some d).
  { unfold sA. rewrite select_loop_only; [done|]. rewrite elem_of_seq. lia. }
  destruct (select_visit_started sA k d HkA ltac:(congruence) Hi Hs)
    as (HiB & HkB & HnB & HcB).
  set (sB := select_visit sA k) in *.
  destruct (select_loop_passes (seq (S k) (length (inList_ s) - S k)) sB)
    as (HlC & HiC & HnC & t2 & HcC).
  { apply Forall_forall. intros j Hj d' Hj' Hname'.
    apply list_elem_of_In, elem_of_seq in Hj.
    apply (Hlast j d'); [lia | | congruence].
    rewrite <- Hj'. unfold sB, sA.
    rewrite select_visit_only by lia.
    rewrite select_loop_only; [done|]. rewrite elem_of_seq. lia. }
  rewrite HiC, HiB. split; [congruence|]. split; [by rewrite HlC|].
  exists t1, t2.
  rewrite HcC, HcB, HcA, Hname, <- !app_assoc. done.
Qed.

(** C8: a second [SelectDevice] with the same name is the identity when
    the first left an input device bound: no call is made and no device
    changes; and whatever the first call did, the second calls [Stop] on no
    device.  More generally, selecting the name of the bound device only
    records the name.  Selecting another name stops and closes the bound
    device and unbinds it, and goes on as a selection made with no device
    bound: [Stop] and [Close] of the old device come first among the calls,
    no later call is made on it, and it ends closed and unbound.  When the
    name differs from that of the bound device, or no device is bound, and
    [k] is the last device of the name whose [Init] succeeds, and its
    [Start] succeeds, then [Init] and [Start] are called on [k], in that
    order and after the [Stop] and [Close] of the old device; [k] is bound
    and running, and after a second [SelectDevice] with the same name it is
    still bound and running and no further call has been made. *)
Theorem SelectDevice_same_or_other (s : MidiService) (name : string) :
  (is_Some (inDevice_ (SelectDevice name s)) ->
   SelectDevice name (SelectDevice name s) = SelectDevice name s) /\
  (exists tl,
      calls (SelectDevice name (SelectDevice name s)) =
        calls (SelectDevice name s) ++ tl /\
      Forall (fun e => forall j, e <> InCall j CStop) tl) /\
  (forall i d, inDevice_ s = Some i -> inList_ s !! i = Some d ->
     (dev_name d = name -> SelectDevice name s = set_deviceName name s) /\
     (dev_name d <> name ->
      SelectDevice name s =
        SelectDevice name (set_inDevice None (in_Close i (in_Stop i s))) /\
      (exists tl,
          calls (SelectDevice name s) =
            calls s ++ [InCall i CStop; InCall i CClose] ++ tl /\
          Forall (fun e => forall c, e <> InCall i c) tl) /\
      dev_state <$> inList_ (SelectDevice name s) !! i = Some DevClosed /\
      inDevice_ (SelectDevice name s) <> Some i)) /\
  (forall k dk,
     inList_ s !! k = Some dk -> dev_name dk = name ->
     dev_init_ok dk = true -> dev_start_ok dk = true ->
     (forall j d', k < j -> inList_ s !! j = Some d' -> dev_name d' = name ->
        dev_init_ok d' = false) ->
     (forall i, inDevice_ s = Some i -> in_GetName i s <> name) ->
     inDevice_ (SelectDevice name s) = Some k /\
     inList_ (SelectDevice name s) !! k = Some (dev_with_state DevRunning dk) /\
     (exists t1 t2,
         calls (SelectDevice name s) =
           calls s ++
           match inDevice_ s with
           | Some i => [InCall i CStop; InCall i CClose]
           | None => []
           end ++ t1 ++
           [InCall k CInit; InCall k CStart;
            TraceLog "MIDI"
              ("Controlling activated for MIDI interface " +:+ name)] ++ t2) /\
     inDevice_ (SelectDevice name (SelectDevice name s)) = Some k /\
     inList_ (SelectDevice name (SelectDevice name s)) !! k =
       Some (dev_with_state DevRunning dk) /\
     calls (SelectDevice name (SelectDevice name s)) =
       calls (SelectDevice name s)).
Proof.
  assert (Htwice : forall i, inDevice_ (SelectDevice name s) = Some i ->
            SelectDevice name (SelectDevice name s) = SelectDevice name s).
  { intros i Hi. destruct (SelectDevice_bound name s i Hi) as [Hn Hd].
    rewrite (SelectDevice_skip name _ i) by done.
    rewrite <- Hd at 1. apply set_deviceName_same. }
  split; [|split; [|split]].
  - intros [i Hi]. by apply (Htwice i).
  - destruct (inDevice_ (SelectDevice name s)) as [i|] eqn:Hi.
    + exists []. rewrite (Htwice i) by done. by rewrite app_nil_r.
    + rewrite SelectDevice_unbound by done.
      destruct (selecting_search (set_deviceName name (SelectDevice name s)))
        as [_ _ (tl & Hc & Hf) _ _].
      exists tl. split; [exact Hc|].
      eapply Forall_impl; [|exact Hf].
      intros [j cl|j cl|tag text] He j'; cbn in He; try done.
      destruct He as [_ He]. congruence.
  - intros i d Hi Hd.
    assert (Hg : in_GetName i s = dev_name d) by (unfold in_GetName; by rewrite Hd).
    split; [intros Hn; apply (SelectDevice_skip name s i); congruence|].
    intros Hn.
    set (s1 := set_inDevice None (in_Close i (in_Stop i (set_deviceName name s)))).
    assert (Hs1 : SelectDevice name s = select_search s1).
    { apply SelectDevice_other; congruence. }
    assert (Hold : in_names s1 !! i <> Some (deviceName_ s1)).
    { unfold s1, in_names. cbn.
      rewrite (fmap_name_alter dev_Close), (fmap_name_alter dev_Stop)
        by (done || apply dev_name_Stop).
      rewrite list_lookup_fmap, Hd. cbn. congruence. }
    destruct (selecting_search s1) as [_ _ (tl & Hc & Hf) Ho Hb].
    split; [|split; [|split]].
    + rewrite Hs1. by rewrite SelectDevice_unbound.
    + exists tl. split.
      * rewrite Hs1, Hc. unfold s1. cbn. by rewrite <- !app_assoc.
      * eapply Forall_impl; [|exact Hf].
        intros [j cl|j cl|tag text] He c; cbn in He; try done.
        destruct He as [He _]. intros [= -> _]. done.
    + rewrite Hs1, (Ho i Hold). unfold s1. cbn.
      by rewrite !list_lookup_alter_eq, Hd.
    + rewrite Hs1. intros Hi'. by destruct (Hb i Hi') as [H|H].
  - intros k dk Hk Hname Hiok Hsok Hlast Hold.
    assert (Hfirst :
      inDevice_ (SelectDevice name s) = Some k /\
      inList_ (SelectDevice name s) !! k = Some (dev_with_state DevRunning dk) /\
      exists t1 t2,
        calls (SelectDevice name s) =
          calls s ++
          match inDevice_ s with
          | Some i => [InCall i CStop; InCall i CClose]
          | None => []
          end ++ t1 ++
          [InCall k CInit; InCall k CStart;
           TraceLog "MIDI"
             ("Controlling activated for MIDI interface " +:+ name)] ++ t2).
    { destruct (inDevice_ s) as [i|] eqn:Hi.
      - pose proof (Hold i eq_refl) as Hg.
        rewrite (SelectDevice_other name s i) by done.
        set (s1 := set_inDevice None (in_Close i (in_Stop i (set_deviceName name s)))).
        assert (Hki : k <> i).
        { intros ->. apply Hg. unfold in_GetName. by rewrite Hk. }
        destruct (select_search_started s1 k dk) as (H1 & H2 & t1 & t2 & H3);
          try done.
        + unfold s1. cbn. by rewrite !list_lookup_alter_ne.
        + intros j d' Hj Hd' Hn'. unfold s1 in Hd'. cbn in Hd', Hn'.
          destruct (decide (j = i)) as [->|Hji].
          * exfalso. apply Hg. unfold in_GetName.
            rewrite !list_lookup_alter_eq in Hd'.
            destruct (inList_ s !! i) as [d|]; [|done].
            cbn in Hd'. injection Hd' as <-. rewrite <- Hn'.
            cbn. by rewrite dev_name_Stop.
          * rewrite !list_lookup_alter_ne in Hd' by done.
            by apply (Hlast j d').
        + split; [done|]. split; [done|]. exists t1, t2.
          rewrite H3. unfold s1. cbn. by rewrite <- !app_assoc.
      - rewrite SelectDevice_unbound by done.
        destruct (select_search_started (set_deviceName name s) k dk)
          as (H1 & H2 & t1 & t2 & H3); try done.
        split; [done|]. split; [done|]. by exists t1, t2. }
    destruct Hfirst as (H1 & H2 & H3).
    rewrite (Htwice k H1). done.
Qed.

(** C4: with one input device named "stuck" whose [Init] succeeds and
    whose [Start] fails, [SelectDevice "stuck"] closes the device again but
    leaves [inDevice_] pointing at it: the failure is logged, "not found" is
    not, and a second [SelectDevice "stuck"] skips the search.  The output
    side, in [startOutDevice], binds a device only once it has started. *)
Theorem SelectDevice_start_failure_stays_bound :
  inDevice_ sample_stuck = Some 2 /\
  inList_ sample_stuck !! 2 = Some (mkDevice "stuck" true false DevClosed) /\
  calls sample_stuck =
    [InCall 2 CInit; InCall 2 CStart;
     TraceLog "MIDI" "Failed to start input for MIDI interface stuck";
     InCall 2 CClose] /\
  SelectDevice "stuck" sample_stuck = sample_stuck /\
  outDevice_ (OnPlayerStart unused_bytes sample_stuck) = None.
Proof. vm_compute. repeat split. Qed.

(** ** Statements of the specification that the code does not meet *)

(** C1 as stated fails: in the scenario the batch sent is [noteA], the
    message of the first step, and not [noteB]. *)
Lemma scenario_does_not_send_second_step :
  sent (calls (run 4 (scenario noteA noteB) (sample_playing "2"))) = [[noteA]] /\
  sent (calls (run 4 (scenario noteA noteB) (sample_playing "2"))) <> [[noteB]].
Proof. vm_compute. split; [reflexivity | discriminate]. Qed.

(** C2 as stated fails: delay 2 and four slots satisfy [d + 1 <= N], yet
    with one tick after each of five steps every [Flush] restarts the
    countdown, nothing is ever sent, and the fifth [AdvancePlayQueue] empties
    slot 1 while it still holds the note of the first step. *)
Lemma ring_depth_does_not_protect :
  (midiDelay_ (sample_playing "2") + 1 <= 4)%Z /\
  lost 4 (concat (cycle_ops <$> one_tick_per_step)) (sample_playing "2") =
    [[step_note 1]] /\
  sent (calls (run 4 (concat (cycle_ops <$> one_tick_per_step)) (sample_playing "2"))) = [].
Proof. vm_compute. repeat split. discriminate. Qed.

(** C3 as stated fails: the text "abc" gives the delay 0, not 1. *)
Lemma malformed_MIDIDELAY_is_not_default :
  midiDelay_ (MidiService_new 4 (sample_config "abc") sample_memory) <> 1%Z.
Proof. vm_compute. discriminate. Qed.

(** ** The theorems at concrete inputs *)

Lemma sample_scenario_run :
  outDevice_ (sample_playing "2") = Some 0 /\
  midiDelay_ (sample_playing "2") = 2%Z /\
  length (queues_ (sample_playing "2")) = 4 /\
  calls (run 4 (scenario noteA noteB) (Start (sample_playing "2")).1) =
    calls (sample_playing "2") ++ [OutCall 0 (CSendQueue [noteA])].
Proof.
  split; [vm_compute; reflexivity|]. split; [vm_compute; reflexivity|].
  split; [vm_compute; reflexivity|].
  apply (scenario_sends_first_step (sample_playing "2") 0 noteA noteB);
    vm_compute; reflexivity.
Defined.

Lemma sample_two_slots_settled : settled 2 sample_two_slots.
Proof.
  constructor; try (vm_compute; reflexivity).
  - vm_compute. split; [discriminate | reflexivity].
  - vm_compute. discriminate.
  - exists 0. vm_compute. reflexivity.
Defined.

Lemma sample_steps_paced :
  (midiDelay_ sample_two_slots + 1 <= 2)%Z /\
  lost 2 (concat (cycle_ops <$> drain_in_next_step)) sample_two_slots = [] /\
  sent (calls (run 2 (concat (cycle_ops <$> drain_in_next_step)) sample_two_slots)) =
    [[step_note 1]; [step_note 2]; [step_note 3]].
Proof.
  split; [vm_compute; discriminate|].
  destruct (paced_steps_lose_nothing 2 sample_two_slots drain_in_next_step)
    as (Hlost & Hsent & _).
  - exact sample_two_slots_settled.
  - vm_compute. discriminate.
  - vm_compute. reflexivity.
  - split; [exact Hlost|].
    match type of Hsent with
    | _ ++ ?b = _ => assert (E : b = []) by (vm_compute; reflexivity)
    end.
    rewrite E, app_nil_r in Hsent. rewrite Hsent. vm_compute. reflexivity.
Defined.

Lemma sample_abc_delay :
  sample_config "abc" "MIDIDELAY" = Some "abc" /\
  no_leading_number "abc" = true /\
  midiDelay_ (MidiService_new 4 (sample_config "abc") sample_memory) = 0%Z /\
  midiDelay_ (MidiService_new 4 (sample_config "12abc") sample_memory) = 12%Z /\
  midiDelay_ (MidiService_new 4 (sample_config "2147483648") sample_memory) =
    (-2147483648)%Z.
Proof.
  destruct (malformed_MIDIDELAY_is_atoi 4 (sample_config "abc") sample_memory
              "abc" ltac:(vm_compute; reflexivity)) as (_ & _ & _ & Hzero).
  assert (H1 := Hzero ltac:(vm_compute; reflexivity)).
  destruct (malformed_MIDIDELAY_is_atoi 4 (sample_config "12abc") sample_memory
              "12abc" ltac:(vm_compute; reflexivity)) as (_ & _ & Hfit & _).
  assert (H2 := Hfit ltac:(vm_compute; split; discriminate)).
  destruct (malformed_MIDIDELAY_is_atoi 4 (sample_config "2147483648")
              sample_memory "2147483648" ltac:(vm_compute; reflexivity))
    as (H3 & _).
  clear Hzero Hfit. vm_compute in H1, H2, H3 |- *. auto.
Defined.


Lemma sample_flush_timing :
  midiDelay_ (sample_playing "2") = Z.of_nat 2 /\
  ticks 4 1 (Flush 4 (sample_playing "2")) =
    set_tickToFlush 1 (sample_playing "2") /\
  ticks 4 2 (Flush 4 (sample_playing "2")) =
    flushOutQueue 4 (set_tickToFlush 0 (sample_playing "2")) /\
  fire_log 4 (OpFlush :: replicate 3 OpTick) (sample_playing "2") =
    [false; false; true; false] /\
  onAudioTick 4 (sample_playing "2") = sample_playing "2".
Proof.
  assert (Hd : midiDelay_ (sample_playing "2") = Z.of_nat 2)
    by (vm_compute; reflexivity).
  destruct (Flush_drains_at_kth_tick 4 (sample_playing "2") 2 Hd)
    as (Hticks & Hlog & Hidle).
  pose proof (Hticks 1) as H1. pose proof (Hticks 2) as H2.
  pose proof (Hlog 3) as H3.
  assert (H4 : onAudioTick 4 (sample_playing "2") = sample_playing "2")
    by (apply Hidle; vm_compute; reflexivity).
  clear Hticks Hlog Hidle.
  vm_compute in H1, H2, H3, H4 |- *. auto.
Defined.

Lemma sample_rearm :
  0 < 2 /\
  midiDelay_ (sample_playing "2") = Z.of_nat 2 /\
  Flush 4 (set_tickToFlush 1 (sample_playing "2")) =
    set_tickToFlush 2 (sample_playing "2") /\
  fire_log 4 (OpFlush :: replicate 1 OpTick ++ OpFlush :: replicate 3 OpTick)
    (sample_playing "2") =
    [false; false; false; false; true; false] /\
  drain_count 4 (OpFlush :: replicate 5 OpTick) (sample_playing "2") <= 0 + 1.
Proof.
  assert (Hpos : 0 < 2) by lia.
  assert (Hd : midiDelay_ (sample_playing "2") = Z.of_nat 2)
    by (vm_compute; reflexivity).
  destruct (Flush_rearm_replaces_countdown 4 (sample_playing "2") 2 Hpos Hd)
    as (Hre & Hlog & Hcount).
  pose proof (Hre 1%Z) as H1.
  assert (H2 := Hlog 1 3 ltac:(lia)).
  pose proof (Hcount (OpFlush :: replicate 5 OpTick) (sample_playing "2")) as H3.
  clear Hre Hlog Hcount.
  vm_compute in H1, H2, H3 |- *. auto.
Defined.

Lemma sample_drain_unbound :
  outDevice_ (Start (sample_new "1")).1 = None /\
  calls (flushOutQueue 4 (Start (sample_new "1")).1) =
    calls (Start (sample_new "1")).1 /\
  currentOutQueue_ (flushOutQueue 4 (Start (sample_new "1")).1) = 1%Z.
Proof.
  assert (H : outDevice_ (Start (sample_new "1")).1 = None)
    by (vm_compute; reflexivity).
  destruct (flushOutQueue_without_device 4 (Start (sample_new "1")).1 H)
    as (Hcalls & Hcur & _).
  vm_compute in Hcalls, Hcur |- *. auto.
Defined.

Lemma sample_reselect :
  SelectDevice "port" (SelectDevice "port" (sample_new "1")) =
    SelectDevice "port" (sample_new "1") /\
  SelectDevice "port" (sample_playing "1") =
    set_deviceName "port" (sample_playing "1") /\
  inDevice_ (SelectDevice "pad" (sample_playing "1")) <> Some 0 /\
  inDevice_ (SelectDevice "pad" (sample_playing "1")) = Some 1 /\
  inList_ (SelectDevice "pad" (sample_playing "1")) !! 1 =
    Some (mkDevice "pad" true true DevRunning) /\
  inList_ (SelectDevice "pad" (SelectDevice "pad" (sample_playing "1"))) !! 1 =
    Some (mkDevice "pad" true true DevRunning).
Proof.
  destruct (SelectDevice_same_or_other (sample_new "1") "port")
    as (Htwice & _ & _ & _).
  assert (H1 := Htwice ltac:(exists 0; vm_compute; reflexivity)).
  destruct (SelectDevice_same_or_other (sample_playing "1") "port")
    as (_ & _ & Hsame & _).
  destruct (Hsame 0 (mkDevice "port" true true DevRunning)
              ltac:(vm_compute; reflexivity) ltac:(vm_compute; reflexivity))
    as [Hskip _].
  assert (H2 := Hskip ltac:(vm_compute; reflexivity)).
  destruct (SelectDevice_same_or_other (sample_playing "1") "pad")
    as (_ & _ & Hother & Hnew).
  destruct (Hother 0 (mkDevice "port" true true DevRunning)
              ltac:(vm_compute; reflexivity) ltac:(vm_compute; reflexivity))
    as [_ Hswap].
  destruct (Hswap ltac:(vm_compute; discriminate)) as (_ & _ & _ & H3).
  destruct (Hnew 1 pad_in) as (H4 & H5 & _ & _ & H6 & _).
  - vm_compute. reflexivity.
  - reflexivity.
  - reflexivity.
  - reflexivity.
  - intros j d' Hj Hd' Hn.
    destruct j as [|[|[|j]]]; [lia | lia | |]; vm_compute in Hd'.
    + injection Hd' as <-. vm_compute in Hn. discriminate.
    + discriminate.
  - intros i Hi. vm_compute in Hi. injection Hi as <-. vm_compute. discriminate.
  - clear Htwice Hsame Hskip Hother Hswap Hnew.
    vm_compute in H1, H2, H3, H4, H5, H6 |- *. auto 10.
Defined.

Lemma sample_teardown :
  inDevice_ (sample_new "1") = None /\
  Close (sample_new "1") = NullDeref /\
  inDevice_ (sample_playing "1") = Some 0 /\
  Close (sample_playing "1") =
    Ok (in_Close 0 (in_Stop 0 (Stop (sample_playing "1")))).
Proof.
  destruct (Close_needs_input_device (sample_new "1")) as (Hnone & _ & _).
  assert (H1 := Hnone ltac:(vm_compute; reflexivity)).
  destruct (Close_needs_input_device (sample_playing "1")) as (_ & Hsome & _).
  assert (H2 := Hsome 0 ltac:(vm_compute; reflexivity)).
  clear Hnone Hsome.
  vm_compute in H1, H2 |- *. auto.
Defined.

Lemma sample_restart :
  outDevice_ sample_undrained = Some 0 /\
  slot_get (queues_ sample_undrained) 1 = [noteA] /\
  calls (flushOutQueue 4 (Start sample_undrained).1) =
    calls sample_undrained ++ [OutCall 0 (CSendQueue [noteA])].
Proof.
  destruct (Start_resets_cursors_only 4 sample_undrained) as (_ & _ & Hsend).
  assert (H := Hsend 0 ltac:(vm_compute; reflexivity)). clear Hsend.
  vm_compute in H |- *. auto.
Defined.

(** * Further properties *)

(** ** What each part of the service leaves alone *)

Lemma select_visit_frame s k :
  ring_of (select_visit s k) = ring_of s /\
  config_of (select_visit s k) = config_of s /\
  out_side (select_visit s k) = out_side s.
Proof.
  unfold select_visit.
  destruct (inList_ s !! k) as [d|] eqn:Hk; [|done].
  destruct (String.eqb (deviceName_ s) (dev_name d)); [|done].
  unfold in_Init. rewrite Hk.
  destruct (dev_Init d) as [d1 [|]]; cbn; [|done].
  unfold in_Start. cbn.
  destruct (<[k:=d1]> (inList_ s) !! k) as [d2|]; cbn; [|done].
  by destruct (dev_Start d2) as [d3 [|]].
Qed.

Lemma select_loop_frame ks s :
  ring_of (foldl select_visit s ks) = ring_of s /\
  config_of (foldl select_visit s ks) = config_of s /\
  out_side (foldl select_visit s ks) = out_side s.
Proof.
  revert s. induction ks as [|k ks IH]; intros s; [done|].
  cbn. destruct (IH (select_visit s k)) as (-> & -> & ->).
  apply select_visit_frame.
Qed.

Lemma select_search_frame s :
  ring_of (select_search s) = ring_of s /\
  config_of (select_search s) = config_of s /\
  out_side (select_search s) = out_side s.
Proof.
  unfold select_search.
  destruct (select_loop_frame (seq 0 (length (inList_ s))) s) as (Hr & Hc & Ho).
  by destruct (inDevice_ (foldl select_visit s (seq 0 (length (inList_ s))))).
Qed.

Lemma deviceName_SelectDevice name s : deviceName_ (SelectDevice name s) = name.
Proof.
  destruct (inDevice_ s) as [i|] eqn:Hi.
  - destruct (decide (in_GetName i s = name)) as [Heq|Hne].
    + by rewrite (SelectDevice_skip name s i).
    + rewrite (SelectDevice_other name s i) by done.
      by rewrite (sel_name _ _ (selecting_search _)).
  - rewrite SelectDevice_unbound by done.
    by rewrite (sel_name _ _ (selecting_search _)).
Qed.

Lemma SelectDevice_frame name s :
  ring_of (SelectDevice name s) = ring_of s /\
  config_of (SelectDevice name s) = config_of s /\
  out_side (SelectDevice name s) = out_side s.
Proof.
  destruct (inDevice_ s) as [i|] eqn:Hi.
  - destruct (decide (in_GetName i s = name)) as [Heq|Hne].
    + by rewrite (SelectDevice_skip name s i).
    + rewrite (SelectDevice_other name s i) by done.
      destruct (select_search_frame
                  (set_inDevice None (in_Close i (in_Stop i (set_deviceName name s)))))
        as (-> & -> & ->). done.
  - rewrite SelectDevice_unbound by done.
    destruct (select_search_frame (set_deviceName name s)) as (-> & -> & ->).
    done.
Qed.

(** X1: [SelectDevice] records the name and works on the input devices
    only: the queues, both cursors, the countdown, the configured delay and
    sync flag, the output devices and the output pointer are as before. *)
Theorem SelectDevice_leaves_playback_alone (name : string) (s : MidiService) :
  deviceName_ (SelectDevice name s) = name /\
  ring_of (SelectDevice name s) = ring_of s /\
  config_of (SelectDevice name s) = config_of s /\
  out_side (SelectDevice name s) = out_side s.
Proof.
  split; [apply deviceName_SelectDevice|].
  apply SelectDevice_frame.
Qed.

Lemma flushOutQueue_frame N s :
  in_side (flushOutQueue N s) = in_side s /\
  out_side (flushOutQueue N s) = out_side s /\
  config_of (flushOutQueue N s) = config_of s /\
  deviceName_ (flushOutQueue N s) = deviceName_ s /\
  tickToFlush_ (flushOutQueue N s) = tickToFlush_ s /\
  exists tl, calls (flushOutQueue N s) = calls s ++ tl /\
             Forall (is_send_to (outDevice_ s)) tl.
Proof.
  destruct s as [ol il dn ind [o|] qs pq oq md tf ss cs]; cbn; repeat split.
  - eexists [_]. split; [done|]. by repeat constructor.
  - exists []. by rewrite app_nil_r.
Qed.

Lemma exec_frame N s o :
  in_side (exec N s o) = in_side s /\
  out_side (exec N s o) = out_side s /\
  config_of (exec N s o) = config_of s /\
  deviceName_ (exec N s o) = deviceName_ s /\
  exists tl, calls (exec N s o) = calls s ++ tl /\
             Forall (is_send_to (outDevice_ s)) tl.
Proof.
  assert (Hid : exists tl, calls s = calls s ++ tl /\
                           Forall (is_send_to (outDevice_ s)) tl).
  { exists []. by rewrite app_nil_r. }
  destruct o as [|m| |]; cbn [exec].
  - done.
  - unfold QueueMessage. by destruct (outDevice_ s).
  - unfold Flush.
    destruct (tickToFlush_ (set_tickToFlush (midiDelay_ s) s) =? 0)%Z; [|done].
    destruct (flushOutQueue_frame N (set_tickToFlush (midiDelay_ s) s))
      as (? & ? & ? & ? & _ & ?). done.
  - unfold onAudioTick. destruct (0 <? tickToFlush_ s)%Z; [|done].
    destruct (tickToFlush_ (set_tickToFlush (tickToFlush_ s - 1) s) =? 0)%Z;
      [|done].
    destruct (flushOutQueue_frame N (set_tickToFlush (tickToFlush_ s - 1) s))
      as (? & ? & ? & ? & _ & ?). done.
Qed.

(** X2: queueing, advancing, flushing and ticking never open, start, stop or
    close a device and never change a device list, a device pointer, the
    pending name or the configuration; every call they make is a [SendQueue]
    on the output device that is bound. *)
Theorem ring_only_sends (N : Z) (ops : list Op) (s : MidiService) :
  in_side (run N ops s) = in_side s /\
  out_side (run N ops s) = out_side s /\
  config_of (run N ops s) = config_of s /\
  deviceName_ (run N ops s) = deviceName_ s /\
  exists tl, calls (run N ops s) = calls s ++ tl /\
             Forall (is_send_to (outDevice_ s)) tl.
Proof.
  revert s. induction ops as [|o ops IH]; intros s.
  - repeat split. exists []. by rewrite app_nil_r.
  - rewrite run_cons.
    destruct (exec_frame N s o) as (Hi & Ho & Hc & Hn & t1 & Ht1 & Hf1).
    destruct (IH (exec N s o)) as (Hi' & Ho' & Hc' & Hn' & t2 & Ht2 & Hf2).
    rewrite Hi', Ho', Hc', Hn'. repeat split; try done.
    exists (t1 ++ t2). split; [by rewrite Ht2, Ht1, <- app_assoc|].
    apply Forall_app. split; [done|].
    replace (outDevice_ s) with (outDevice_ (exec N s o)); [done|].
    by injection Ho.
Qed.

(** ** The output device *)

Lemma startOutDevice_loop_cons i d rest s :
  startOutDevice_loop i (d :: rest) s =
  if String.eqb (deviceName_ s) (dev_name d) then startOutDevice_try i s
  else startOutDevice_loop (S i) rest s.
Proof. done. Qed.

Lemma startOutDevice_loop_none i rest s :
  Forall (fun d => dev_name d <> deviceName_ s) rest ->
  startOutDevice_loop i rest s = s.
Proof.
  intros H. revert i. induction H as [|d rest Hd _ IH]; intros i; [done|].
  rewrite startOutDevice_loop_cons.
  destruct (String.eqb_spec (deviceName_ s) (dev_name d)); [congruence|].
  apply IH.
Qed.

(** The loop either finds no device of the name and changes nothing, or
    tries the first one of that name and stops. *)
Lemma startOutDevice_loop_cases k rest s :
  (Forall (fun d => dev_name d <> deviceName_ s) rest /\
   startOutDevice_loop k rest s = s) \/
  (exists n d, rest !! n = Some d /\ dev_name d = deviceName_ s /\
     (forall j d', j < n -> rest !! j = Some d' -> dev_name d' <> deviceName_ s) /\
     startOutDevice_loop k rest s = startOutDevice_try (k + n) s).
Proof.
  revert k. induction rest as [|d rest IH]; intros k.
  - left. by split.
  - rewrite startOutDevice_loop_cons.
    destruct (String.eqb_spec (deviceName_ s) (dev_name d)) as [Heq|Hne].
    + right. exists 0, d. rewrite Nat.add_0_r. repeat split; try done.
      intros j d' Hj. lia.
    + destruct (IH (S k)) as [[Hall Hs]|(n & d' & Hn & Hname & Hfirst & Hs)].
      * left. split; [|done]. constructor; [congruence | done].
      * right. exists (S n), d'. rewrite Nat.add_succ_r.
        repeat split; try done.
        intros [|j] d'' Hj Hl; cbn in Hl.
        -- injection Hl as <-. congruence.
        -- apply (Hfirst j); [lia | done].
Qed.

Lemma startOutDevice_try_spec i d s :
  outList s !! i = Some d ->
  outDevice_ (startOutDevice_try i s) =
    (if dev_init_ok d && dev_start_ok d then Some i else outDevice_ s) /\
  outList (startOutDevice_try i s) !! i =
    Some (dev_with_state (dev_attempted d) d) /\
  (forall j, j <> i ->
     outList (startOutDevice_try i s) !! j = outList s !! j) /\
  out_names (startOutDevice_try i s) = out_names s /\
  ring_of (startOutDevice_try i s) = ring_of s /\
  config_of (startOutDevice_try i s) = config_of s /\
  in_side (startOutDevice_try i s) = in_side s /\
  deviceName_ (startOutDevice_try i s) = deviceName_ s.
Proof.
  intros Hi.
  assert (Hlt : i < length (outList s)) by (by eapply lookup_lt_Some).
  assert (Hnames : forall st,
            dev_name <$> <[i := dev_with_state st d]> (outList s) = out_names s).
  { intros st. apply fmap_name_insert. by rewrite Hi. }
  unfold startOutDevice_try, out_Init, dev_attempted. rewrite Hi.
  destruct s as [ol il dn ind od qs pq oq md tf ss cs].
  destruct d as [nm iok sok st]. cbn in *.
  unfold dev_Init. destruct iok; cbn.
  - unfold out_Start. cbn. rewrite list_lookup_insert_eq by done.
    unfold dev_Start. destruct sok; cbn.
    + rewrite list_insert_insert_eq, list_lookup_insert_eq by done.
      repeat split; try done.
      * intros j Hj. by apply list_lookup_insert_ne.
      * apply (Hnames DevRunning).
    + rewrite list_insert_insert_eq.
      rewrite list_lookup_alter_eq, list_lookup_insert_eq by done.
      repeat split; try done.
      * intros j Hj. rewrite list_lookup_alter_ne by done.
        by apply list_lookup_insert_ne.
      * unfold out_names. cbn. rewrite fmap_name_alter by done.
        apply (Hnames DevOpen).
  - rewrite list_lookup_insert_eq by done. repeat split; try done.
    + intros j Hj. by apply list_lookup_insert_ne.
    + apply (Hnames st).
Qed.

Lemma startOutDevice_cases s :
  (Forall (fun d => dev_name d <> deviceName_ s) (outList s) /\
   startOutDevice s = s) \/
  (exists i d, outList s !! i = Some d /\ dev_name d = deviceName_ s /\
     (forall j d', j < i -> outList s !! j = Some d' -> dev_name d' <> deviceName_ s) /\
     startOutDevice s = startOutDevice_try i s).
Proof. apply (startOutDevice_loop_cases 0 (outList s) s). Qed.

(** X3: [startOutDevice] changes nothing when no output device bears the
    pending name.  Otherwise it tries the first device of that name and no
    other: the pointer is set to it only if both its [Init] and its [Start]
    succeed and is left as it was if one fails; the device ends running,
    closed again (start failed) or as it was (init failed). *)
Theorem startOutDevice_first_match (s : MidiService) :
  (Forall (fun d => dev_name d <> deviceName_ s) (outList s) ->
   startOutDevice s = s) /\
  (forall i d,
     outList s !! i = Some d -> dev_name d = deviceName_ s ->
     (forall j d', j < i -> outList s !! j = Some d' ->
                   dev_name d' <> deviceName_ s) ->
     outDevice_ (startOutDevice s) =
       (if dev_init_ok d && dev_start_ok d then Some i else outDevice_ s) /\
     outList (startOutDevice s) !! i = Some (dev_with_state (dev_attempted d) d) /\
     (forall j, j <> i -> outList (startOutDevice s) !! j = outList s !! j)).
Proof.
  split.
  - intros H. by apply startOutDevice_loop_none.
  - intros i d Hi Hname Hfirst.
    destruct (startOutDevice_cases s)
      as [[Hall _]|(i' & d' & Hi' & Hname' & Hfirst' & Hs)].
    + rewrite Forall_lookup in Hall. by destruct (Hall i d Hi).
    + assert (i' = i) as ->.
      { destruct (Nat.lt_trichotomy i' i) as [Hlt|[Heq|Hgt]]; [|done|].
        - by destruct (Hfirst i' d' Hlt Hi').
        - by destruct (Hfirst' i d Hgt Hi). }
      rewrite Hs.
      destruct (startOutDevice_try_spec i d s Hi) as (H1 & H2 & H3 & _).
      done.
Qed.

Lemma stopOutDevice_frame s :
  out_names (stopOutDevice s) = out_names s /\
  ring_of (stopOutDevice s) = ring_of s /\
  config_of (stopOutDevice s) = config_of s /\
  in_side (stopOutDevice s) = in_side s /\
  deviceName_ (stopOutDevice s) = deviceName_ s /\
  outDevice_ (stopOutDevice s) = None.
Proof.
  destruct s as [ol il dn ind [o|] qs pq oq md tf ss cs]; cbn; [|done].
  repeat split. unfold out_names. cbn.
  rewrite (fmap_name_alter dev_Close), (fmap_name_alter dev_Stop)
    by (done || apply dev_name_Stop). done.
Qed.

(** X4: [stopOutDevice] always leaves the output pointer null.  A bound
    device is stopped, then closed, and ends closed; with no device bound
    nothing happens; doing it twice is the same as doing it once. *)
Theorem stopOutDevice_unbinds (s : MidiService) :
  outDevice_ (stopOutDevice s) = None /\
  stopOutDevice (stopOutDevice s) = stopOutDevice s /\
  (outDevice_ s = None -> stopOutDevice s = s) /\
  (forall o d, outDevice_ s = Some o -> outList s !! o = Some d ->
     dev_state <$> outList (stopOutDevice s) !! o = Some DevClosed /\
     calls (stopOutDevice s) = calls s ++ [OutCall o CStop; OutCall o CClose]).
Proof.
  destruct s as [ol il dn ind [o|] qs pq oq md tf ss cs]; cbn.
  - split; [done|]. split; [done|]. split; [done|].
    intros o' d [= <-] Hd. split.
    + by rewrite !list_lookup_alter_eq, Hd.
    + by rewrite <- app_assoc.
  - split; [done|]. split; [done|]. split; [done|]. by intros o' d [=].
Qed.

Lemma length_zero_empty (v : string) : String.length v = 0 <-> v = "".
Proof. by destruct v. Qed.

Lemma Forall_out_names (P : string -> Prop) s :
  Forall (fun d => P (dev_name d)) (outList s) <-> Forall P (out_names s).
Proof. unfold out_names. by rewrite Forall_fmap. Qed.

Lemma startOutDevice_none s :
  Forall (fun d => dev_name d <> deviceName_ s) (outList s) ->
  startOutDevice s = s.
Proof. apply startOutDevice_loop_none. Qed.

Lemma startOutDevice_frame s :
  out_names (startOutDevice s) = out_names s /\
  ring_of (startOutDevice s) = ring_of s /\
  config_of (startOutDevice s) = config_of s /\
  in_side (startOutDevice s) = in_side s /\
  deviceName_ (startOutDevice s) = deviceName_ s.
Proof.
  destruct (startOutDevice_cases s) as [[_ ->]|(i & d & Hi & _ & _ & ->)];
    [done|].
  by destruct (startOutDevice_try_spec i d s Hi) as (_ & _ & _ & ? & ? & ? & ? & ?).
Qed.

(** After [startOutDevice] on a service with no output device bound, a
    bound device bears the pending name and is running. *)
Lemma startOutDevice_bound s i :
  outDevice_ s = None -> outDevice_ (startOutDevice s) = Some i ->
  exists d, outList (startOutDevice s) !! i = Some d /\
            dev_name d = deviceName_ s /\ dev_state d = DevRunning.
Proof.
  intros Hnone Hb.
  destruct (startOutDevice_cases s) as [[_ Hs]|(i' & d & Hi & Hname & _ & Hs)];
    rewrite Hs in Hb |- *; [congruence|].
  destruct (startOutDevice_try_spec i' d s Hi) as (Ho & Hl & _).
  rewrite Ho, Hnone in Hb. unfold dev_attempted in Hl.
  destruct (dev_init_ok d), (dev_start_ok d); try discriminate.
  injection Hb as <-. by eexists.
Qed.

Lemma QueueMessage_frame m s :
  out_side (QueueMessage m s) = out_side s /\
  in_side (QueueMessage m s) = in_side s /\
  config_of (QueueMessage m s) = config_of s /\
  deviceName_ (QueueMessage m s) = deviceName_ s /\
  calls (QueueMessage m s) = calls s.
Proof. unfold QueueMessage. by destruct (outDevice_ s). Qed.

(** X5: [OnPlayerStart] with a pending name that no output device bears
    stops and closes the output device that was bound, leaves none bound,
    clears the pending name, and queues nothing. *)
Theorem OnPlayerStart_unknown_name (dflt : MidiMessage) (s : MidiService) :
  deviceName_ s <> "" ->
  Forall (fun d => dev_name d <> deviceName_ s) (outList s) ->
  OnPlayerStart dflt s = set_deviceName "" (stopOutDevice s) /\
  outDevice_ (OnPlayerStart dflt s) = None /\
  queues_ (OnPlayerStart dflt s) = queues_ s.
Proof.
  intros Hne Hall.
  assert (Hs : OnPlayerStart dflt s = set_deviceName "" (stopOutDevice s)).
  { unfold OnPlayerStart.
    destruct (Nat.eqb_spec (String.length (deviceName_ s)) 0) as [H0|_].
    { by apply length_zero_empty in H0. }
    cbn [negb].
    destruct (stopOutDevice_frame s) as (Hn & _ & _ & _ & Hd & Ho).
    rewrite (startOutDevice_none (stopOutDevice s)).
    - destruct (sendSync_ (set_deviceName "" (stopOutDevice s))); [|done].
      unfold QueueMessage.
      replace (outDevice_ (set_deviceName "" (stopOutDevice s)))
        with (@None nat) by (symmetry; exact Ho).
      done.
    - rewrite Hd. apply (Forall_out_names (fun n => n <> deviceName_ s)).
      rewrite Hn. by apply (Forall_out_names (fun n => n <> deviceName_ s)). }
  rewrite Hs. destruct (stopOutDevice_frame s) as (_ & Hr & _ & _ & _ & Ho).
  split; [done|]. split; [done|]. by injection Hr.
Qed.

(** X6: [OnPlayerStart] with no pending name, when no output device has the
    empty name, touches no device and keeps the binding: all it does is
    queue the start byte 0xFA, and only when sync is enabled (the byte is
    dropped by [QueueMessage] when no output device is bound). *)
Theorem OnPlayerStart_no_pending_name (dflt : MidiMessage) (s : MidiService) :
  deviceName_ s = "" ->
  Forall (fun d => dev_name d <> "") (outList s) ->
  OnPlayerStart dflt s =
    if sendSync_ s then QueueMessage (sync_message dflt 250) s else s.
Proof.
  intros He Hall. unfold OnPlayerStart. rewrite He. cbn [String.length Nat.eqb negb].
  rewrite startOutDevice_none; [done|]. by rewrite He.
Qed.

(** X7: the name given to [SelectDevice] also chooses the output device: at
    the next [OnPlayerStart] an output device is bound only if it bears that
    name, and it is then running. *)
Theorem selected_name_picks_output (dflt : MidiMessage) (name : string)
    (s : MidiService) (i : nat) :
  name <> "" ->
  outDevice_ (OnPlayerStart dflt (SelectDevice name s)) = Some i ->
  exists d,
    outList (OnPlayerStart dflt (SelectDevice name s)) !! i = Some d /\
    dev_name d = name /\ dev_state d = DevRunning.
Proof.
  intros Hne.
  pose proof (deviceName_SelectDevice name s) as Hn.
  set (s1 := SelectDevice name s) in *.
  assert (Hout : out_side (OnPlayerStart dflt s1) =
                 out_side (startOutDevice (stopOutDevice s1))).
  { unfold OnPlayerStart.
    destruct (Nat.eqb_spec (String.length (deviceName_ s1)) 0) as [H0|_].
    { apply length_zero_empty in H0. congruence. }
    cbn [negb].
    destruct (sendSync_ (set_deviceName "" (startOutDevice (stopOutDevice s1))));
      [|done].
    by destruct (QueueMessage_frame (sync_message dflt 250)
                   (set_deviceName "" (startOutDevice (stopOutDevice s1))))
      as (-> & _). }
  injection Hout as Hl Ho. rewrite Hl, Ho. intros Hb.
  destruct (stopOutDevice_frame s1) as (_ & _ & _ & _ & Hd & Hnone).
  destruct (startOutDevice_bound _ i Hnone Hb) as (d & Hi & Hname & Hrun).
  exists d. repeat split; try done. congruence.
Qed.

(** X8: [OnPlayerStart] queues the start byte 0xFA at the end of the slot
    of the write cursor when sync is enabled and an output device is bound
    once the device has been started; otherwise it leaves every queue as it
    was.  It never moves a cursor. *)
Theorem OnPlayerStart_queues_start_byte (dflt : MidiMessage) (s : MidiService) :
  queues_ (OnPlayerStart dflt s) =
    (if sendSync_ s then
       match outDevice_ (OnPlayerStart dflt s) with
       | Some _ =>
           slot_set (queues_ s) (currentPlayQueue_ s)
             (slot_get (queues_ s) (currentPlayQueue_ s) ++ [sync_message dflt 250])
       | None => queues_ s
       end
     else queues_ s) /\
  currentPlayQueue_ (OnPlayerStart dflt s) = currentPlayQueue_ s /\
  currentOutQueue_ (OnPlayerStart dflt s) = currentOutQueue_ s.
Proof.
  assert (Hq : forall x, ring_of x = ring_of s -> config_of x = config_of s ->
            let r := if sendSync_ x then QueueMessage (sync_message dflt 250) x
                     else x in
            queues_ r =
              (if sendSync_ s then
                 match outDevice_ r with
                 | Some _ =>
                     slot_set (queues_ s) (currentPlayQueue_ s)
                       (slot_get (queues_ s) (currentPlayQueue_ s) ++
                        [sync_message dflt 250])
                 | None => queues_ s
                 end
               else queues_ s) /\
            currentPlayQueue_ r = currentPlayQueue_ s /\
            currentOutQueue_ r = currentOutQueue_ s).
  { intros x [= Hqs Hp Ho _] [= _ Hs]. cbn. rewrite Hs.
    destruct (sendSync_ s); [|done].
    unfold QueueMessage. destruct (outDevice_ x) as [o|] eqn:Hx; cbn.
    - by rewrite Hx, Hqs, Hp.
    - by rewrite Hx. }
  unfold OnPlayerStart.
  destruct (negb (Nat.eqb (String.length (deviceName_ s)) 0)); apply Hq.
  - destruct (startOutDevice_frame (stopOutDevice s)) as (_ & Hr & Hc & _).
    destruct (stopOutDevice_frame s) as (_ & Hr' & Hc' & _).
    change (ring_of (startOutDevice (stopOutDevice s)) = ring_of s). congruence.
  - destruct (startOutDevice_frame (stopOutDevice s)) as (_ & Hr & Hc & _).
    destruct (stopOutDevice_frame s) as (_ & Hr' & Hc' & _).
    change (config_of (startOutDevice (stopOutDevice s)) = config_of s). congruence.
  - apply startOutDevice_frame.
  - apply startOutDevice_frame.
Qed.

(** ** Invariants of the entry points *)

Lemma ring_ok_of N s s' : ring_of s' = ring_of s -> ring_ok N s -> ring_ok N s'.
Proof.
  intros [= Hq Hp Ho _] [Hl Hpl Hou]. constructor; congruence.
Qed.

Lemma ring_ok_QueueMessage N m s : ring_ok N s -> ring_ok N (QueueMessage m s).
Proof.
  intros [Hl Hp Ho]. unfold QueueMessage. destruct (outDevice_ s); [|done].
  constructor; cbn; [by rewrite length_slot_set | done | done].
Qed.

Lemma ring_ok_AdvancePlayQueue N s :
  (0 < N)%Z -> ring_ok N s -> ring_ok N (AdvancePlayQueue N s).
Proof.
  intros HN [Hl Hp Ho].
  constructor; cbn; [by rewrite length_slot_set | by apply rem_succ_range | done].
Qed.

Lemma ring_ok_flushOutQueue N s :
  (0 < N)%Z -> ring_ok N s -> ring_ok N (flushOutQueue N s).
Proof.
  intros HN [Hl Hp Ho].
  destruct s as [ol il dn ind [o|] qs pq oq md tf ss cs]; cbn in *;
    (constructor; cbn; [by rewrite length_slot_set | done | by apply rem_succ_range]).
Qed.

Lemma ring_ok_set_tickToFlush N t s :
  ring_ok N s -> ring_ok N (set_tickToFlush t s).
Proof. by intros [Hl Hp Ho]. Qed.

Lemma ring_ok_onAudioTick N s :
  (0 < N)%Z -> ring_ok N s -> ring_ok N (onAudioTick N s).
Proof.
  intros HN H. unfold onAudioTick. destruct (0 <? tickToFlush_ s)%Z; [|done].
  destruct (tickToFlush_ _ =? 0)%Z.
  - by apply ring_ok_flushOutQueue, ring_ok_set_tickToFlush.
  - by apply ring_ok_set_tickToFlush.
Qed.

Lemma ring_ok_Flush N s : (0 < N)%Z -> ring_ok N s -> ring_ok N (Flush N s).
Proof.
  intros HN H. unfold Flush. destruct (tickToFlush_ _ =? 0)%Z.
  - by apply ring_ok_flushOutQueue, ring_ok_set_tickToFlush.
  - by apply ring_ok_set_tickToFlush.
Qed.

Lemma ring_ok_OnPlayerStart N dflt s :
  ring_ok N s -> ring_ok N (OnPlayerStart dflt s).
Proof.
  intros H.
  assert (H1 : ring_ok N (startOutDevice s)).
  { destruct (startOutDevice_frame s) as (_ & Hr & _). by eapply ring_ok_of. }
  assert (H2 : ring_ok N (set_deviceName "" (startOutDevice (stopOutDevice s)))).
  { destruct (startOutDevice_frame (stopOutDevice s)) as (_ & Hr & _).
    destruct (stopOutDevice_frame s) as (_ & Hr' & _).
    eapply (ring_ok_of N s); [|done]. rewrite <- Hr', <- Hr. done. }
  unfold OnPlayerStart.
  destruct (negb (Nat.eqb (String.length (deviceName_ s)) 0));
    match goal with |- context [sendSync_ ?x] => destruct (sendSync_ x) end;
    try done; by apply ring_ok_QueueMessage.
Qed.

Lemma ring_ok_perform N dflt tk s a :
  (0 < N)%Z -> ring_ok N s -> ring_ok N (perform N dflt tk s a).
Proof.
  intros HN H. destruct a as [name| | |m|slice|ty| | |]; cbn [perform].
  - destruct (SelectDevice_frame name s) as (Hr & _).
    by eapply ring_ok_of.
  - destruct H as [Hl _ _]. constructor; cbn; [done | lia | lia].
  - destruct (stopOutDevice_frame s) as (_ & Hr & _). by eapply ring_ok_of.
  - by apply ring_ok_QueueMessage.
  - unfold Trigger. pose proof (ring_ok_AdvancePlayQueue N s HN H) as Ha.
    destruct (outDevice_ (AdvancePlayQueue N s)); [|done].
    destruct (sendSync_ (AdvancePlayQueue N s)); [|done].
    destruct slice; [|done]. by apply ring_ok_QueueMessage.
  - unfold Update. destruct (ty =? tk)%Z; [|done]. by apply ring_ok_onAudioTick.
  - by apply ring_ok_Flush.
  - by apply ring_ok_OnPlayerStart.
  - unfold OnPlayerStop. destruct (sendSync_ s); [|done].
    by apply ring_ok_QueueMessage.
Qed.

(** X9: once [Start] has run on a ring of [N >= 1] queues, both cursors are
    inside the ring and the ring has [N] queues, and every sequence of calls
    on the service keeps it so: no call indexes [queues_] out of bounds. *)
Theorem cursors_stay_in_ring (N : Z) (dflt : MidiMessage) (tk : Z)
    (s : MidiService) (acts : list Action) :
  (0 < N)%Z -> length (queues_ s) = Z.to_nat N ->
  ring_ok N (perform_all N dflt tk acts (Start s).1).
Proof.
  intros HN Hl.
  assert (H : ring_ok N (Start s).1) by (constructor; cbn; [done | lia | lia]).
  revert H. generalize (Start s).1. clear s Hl.
  induction acts as [|a acts IH]; intros s H; [done|].
  cbn. apply IH. by apply ring_ok_perform.
Qed.

Lemma out_inv_of s s' :
  out_side s' = out_side s ->
  out_ok s /\ Forall (fun n => n <> "") (out_names s) ->
  out_ok s' /\ Forall (fun n => n <> "") (out_names s').
Proof.
  intros [= Hl Ho] [Hok Hn]. unfold out_ok, out_names in *.
  rewrite Hl, Ho. done.
Qed.

Lemma out_inv_OnPlayerStart dflt s :
  out_ok s /\ Forall (fun n => n <> "") (out_names s) ->
  out_ok (OnPlayerStart dflt s) /\
  Forall (fun n => n <> "") (out_names (OnPlayerStart dflt s)).
Proof.
  intros [Hok Hn].
  assert (Hq : forall x,
            out_ok x /\ Forall (fun n => n <> "") (out_names x) ->
            let r := if sendSync_ x then QueueMessage (sync_message dflt 250) x
                     else x in
            out_ok r /\ Forall (fun n => n <> "") (out_names r)).
  { intros x Hx. cbn. destruct (sendSync_ x); [|done].
    eapply out_inv_of; [|exact Hx]. apply QueueMessage_frame. }
  unfold OnPlayerStart.
  destruct (Nat.eqb_spec (String.length (deviceName_ s)) 0) as [H0|_]; cbn [negb].
  - apply Hq. apply length_zero_empty in H0.
    rewrite startOutDevice_none; [done|].
    rewrite H0. by apply (Forall_out_names (fun n => n <> "")).
  - apply Hq.
    destruct (stopOutDevice_frame s) as (Hn1 & _ & _ & _ & _ & Hnone).
    destruct (startOutDevice_frame (stopOutDevice s)) as (Hn2 & _).
    split.
    + intros i Hi.
      destruct (startOutDevice_bound (stopOutDevice s) i Hnone Hi)
        as (d & Hd & _ & Hrun).
      by exists d.
    + change (Forall (fun n => n <> "")
                (out_names (startOutDevice (stopOutDevice s)))).
      by rewrite Hn2, Hn1.
Qed.

Lemma out_inv_perform N dflt tk s a :
  out_ok s /\ Forall (fun n => n <> "") (out_names s) ->
  out_ok (perform N dflt tk s a) /\
  Forall (fun n => n <> "") (out_names (perform N dflt tk s a)).
Proof.
  intros H. destruct a as [name| | |m|slice|ty| | |]; cbn [perform].
  - eapply out_inv_of; [|exact H]. apply SelectDevice_frame.
  - by eapply out_inv_of.
  - destruct (stopOutDevice_frame s) as (Hn & _ & _ & _ & _ & Hnone).
    destruct H as [_ H]. split.
    + intros i Hi. unfold Stop in Hi. congruence.
    + unfold Stop. by rewrite Hn.
  - eapply out_inv_of; [|exact H]. apply QueueMessage_frame.
  - eapply out_inv_of; [|exact H]. unfold Trigger.
    destruct (outDevice_ (AdvancePlayQueue N s)); [|done].
    destruct (sendSync_ (AdvancePlayQueue N s)); [|done].
    destruct slice; [|done].
    by destruct (QueueMessage_frame (sync_message dflt 248) (AdvancePlayQueue N s))
      as (-> & _).
  - eapply out_inv_of; [|exact H]. unfold Update.
    destruct (ty =? tk)%Z; [|done]. apply (exec_frame N s OpTick).
  - eapply out_inv_of; [|exact H]. apply (exec_frame N s OpFlush).
  - by apply out_inv_OnPlayerStart.
  - eapply out_inv_of; [|exact H]. unfold OnPlayerStop.
    destruct (sendSync_ s); [|done]. apply QueueMessage_frame.
Qed.

(** X10: when no output device has the empty name and the output pointer
    is null or points at a running device of the list, it is so again after
    every sequence of the calls [SelectDevice], [Start], [Stop],
    [QueueMessage], [Trigger], [Update], [Flush], [OnPlayerStart] and
    [OnPlayerStop]: between [Init] and [Close], messages are never sent to a
    device that is closed or stopped.  [Init] and [Close] are not among
    these calls; [Init] fills the list anew and leaves the pointer as it
    is. *)
Theorem bound_output_is_running (N : Z) (dflt : MidiMessage) (tk : Z)
    (s : MidiService) (acts : list Action) :
  out_ok s -> Forall (fun d => dev_name d <> "") (outList s) ->
  out_ok (perform_all N dflt tk acts s).
Proof.
  intros Hok Hn.
  assert (H : out_ok s /\ Forall (fun n => n <> "") (out_names s)).
  { split; [done|]. by apply (Forall_out_names (fun n => n <> "")). }
  clear Hok Hn. revert s H.
  induction acts as [|a acts IH]; intros s H; [by destruct H|].
  cbn. apply IH. by apply out_inv_perform.
Qed.

(** ** Queueing and draining *)

Lemma run_enqueues N p acc ms s :
  length (queues_ s) = Z.to_nat N -> (0 <= p < N)%Z -> is_Some (outDevice_ s) ->
  run N (OpEnqueue <$> ms) (in_step p acc s) = in_step p (acc ++ ms) s.
Proof.
  intros Hl Hp [o Ho]. revert acc. induction ms as [|m ms IH]; intros acc.
  - cbn. by rewrite app_nil_r.
  - rewrite fmap_cons, run_cons. cbn [exec].
    replace (QueueMessage m (in_step p acc s)) with (in_step p (acc ++ [m]) s).
    + rewrite IH. by rewrite <- app_assoc.
    + unfold QueueMessage, in_step. cbn. rewrite Ho.
      rewrite slot_get_set by lia. rewrite slot_set_set.
      by rewrite MidiMessage_copy.
Qed.

(** X11: after [AdvancePlayQueue], the messages queued during the step are
    alone in the slot of the write cursor, in the order in which they were
    queued; the other slots are untouched; and when the read cursor was level
    with the write cursor before the step, the next drain sends exactly these
    messages in that order. *)
Theorem step_keeps_insertion_order (N : Z) (s : MidiService) (o : nat)
    (ms : list MidiMessage) :
  (0 < N)%Z -> ring_ok N s -> outDevice_ s = Some o ->
  currentPlayQueue_ (run N (OpAdvance :: (OpEnqueue <$> ms)) s) =
    Z.rem (currentPlayQueue_ s + 1) N /\
  slot_get (queues_ (run N (OpAdvance :: (OpEnqueue <$> ms)) s))
    (Z.rem (currentPlayQueue_ s + 1) N) = ms /\
  (forall c, c <> Z.rem (currentPlayQueue_ s + 1) N ->
     slot_get (queues_ (run N (OpAdvance :: (OpEnqueue <$> ms)) s)) c =
     slot_get (queues_ s) c) /\
  (currentOutQueue_ s = currentPlayQueue_ s ->
   calls (flushOutQueue N (run N (OpAdvance :: (OpEnqueue <$> ms)) s)) =
     calls s ++ [OutCall o (CSendQueue ms)]).
Proof.
  intros HN [Hl Hp Hout] Ho.
  pose proof (rem_succ_range N _ Hp) as Hw.
  rewrite run_cons. cbn [exec]. rewrite AdvancePlayQueue_in_step.
  rewrite run_enqueues by (done || by exists o). cbn [app].
  set (w := Z.rem (currentPlayQueue_ s + 1) N) in *.
  split; [done|]. split; [|split].
  - cbn. apply slot_get_set. lia.
  - intros c Hc. cbn. by apply slot_get_set_ne.
  - intros Heq. unfold flushOutQueue. cbn. rewrite Ho, Heq. fold w. cbn.
    rewrite slot_get_set by lia. done.
Qed.

Lemma slot_get_clear_cases qs c c' :
  slot_get (slot_set qs c []) c' = slot_get qs c' \/
  slot_get (slot_set qs c []) c' = [].
Proof.
  destruct (decide (c = c')) as [->|Hne].
  - right. apply slot_get_cleared.
  - left. by apply slot_get_set_ne.
Qed.

Lemma exec_unbound N s o :
  outDevice_ s = None ->
  outDevice_ (exec N s o) = None /\
  calls (exec N s o) = calls s /\
  forall c, slot_get (queues_ (exec N s o)) c = slot_get (queues_ s) c \/
            slot_get (queues_ (exec N s o)) c = [].
Proof.
  intros Ho.
  assert (Hflush : forall t,
            outDevice_ (flushOutQueue N (set_tickToFlush t s)) = None /\
            calls (flushOutQueue N (set_tickToFlush t s)) = calls s /\
            forall c,
              slot_get (queues_ (flushOutQueue N (set_tickToFlush t s))) c =
                slot_get (queues_ s) c \/
              slot_get (queues_ (flushOutQueue N (set_tickToFlush t s))) c = []).
  { intros t. destruct s as [ol il dn ind od qs pq oq md tf ss cs].
    cbn in Ho. subst od. cbn. repeat split. intros c.
    apply slot_get_clear_cases. }
  destruct o as [|m| |]; cbn [exec].
  - repeat split; try done. intros c. cbn. apply slot_get_clear_cases.
  - unfold QueueMessage. rewrite Ho. repeat split; try done. by left.
  - unfold Flush. destruct (tickToFlush_ _ =? 0)%Z; [apply Hflush|].
    repeat split; try done. by left.
  - unfold onAudioTick. destruct (0 <? tickToFlush_ s)%Z.
    + destruct (tickToFlush_ _ =? 0)%Z; [apply Hflush|].
      repeat split; try done. by left.
    + repeat split; try done. by left.
Qed.

(** X12: while no output device is bound, no call reaches any device and no
    message enters the ring: after any run of ring calls each slot holds what
    it held before or is empty. *)
Theorem unbound_ring_is_silent (N : Z) (ops : list Op) (s : MidiService) :
  outDevice_ s = None ->
  calls (run N ops s) = calls s /\
  forall c, slot_get (queues_ (run N ops s)) c = slot_get (queues_ s) c \/
            slot_get (queues_ (run N ops s)) c = [].
Proof.
  revert s. induction ops as [|o ops IH]; intros s Ho.
  - split; [done|]. by left.
  - rewrite run_cons.
    destruct (exec_unbound N s o Ho) as (Ho' & Hc & Hq).
    destruct (IH (exec N s o) Ho') as (Hc' & Hq').
    split; [congruence|]. intros c.
    destruct (Hq' c) as [H|H]; [|by right].
    rewrite H. apply Hq.
Qed.

(** X13: with a negative configured delay (as [atoi] gives for a MIDIDELAY
    such as "-3") and no countdown running, [Flush] arms nothing and no tick
    ever drains: whatever is queued, nothing is sent. *)
Theorem negative_delay_never_drains (N : Z) (ops : list Op) (s : MidiService) :
  (midiDelay_ s < 0)%Z -> (tickToFlush_ s <= 0)%Z ->
  drain_count N ops s = 0 /\ calls (run N ops s) = calls s.
Proof.
  revert s. induction ops as [|o ops IH]; intros s Hd Ht; [done|].
  rewrite run_cons. cbn [drain_count].
  assert (Hstep : fires s o = false /\ calls (exec N s o) = calls s /\
                  (midiDelay_ (exec N s o) < 0)%Z /\
                  (tickToFlush_ (exec N s o) <= 0)%Z).
  { destruct o as [|m| |]; cbn [exec fires].
    - done.
    - destruct (QueueMessage_frame m s) as (_ & _ & [= Hm _] & _ & Hc).
      rewrite Hm, Hc. repeat split; try done.
      unfold QueueMessage. by destruct (outDevice_ s).
    - rewrite Flush_arm by lia. cbn. repeat split; lia.
    - rewrite onAudioTick_idle by done. repeat split; try done.
      destruct (Z.ltb_spec 0 (tickToFlush_ s)); [lia | done]. }
  destruct Hstep as (-> & Hc & Hd' & Ht').
  destruct (IH (exec N s o) Hd' Ht') as (-> & ->). done.
Qed.

(** X14: [Trigger] moves the write cursor one slot forward and leaves in that
    slot the clock byte 0xF8 alone when an output device is bound, sync is
    enabled and the sync master reports a slice, and nothing otherwise; it
    makes no call on a device. *)
Theorem Trigger_starts_a_slot (N : Z) (dflt : MidiMessage) (slice : bool)
    (s : MidiService) :
  (0 < N)%Z -> ring_ok N s ->
  currentPlayQueue_ (Trigger N dflt slice s) = Z.rem (currentPlayQueue_ s + 1) N /\
  slot_get (queues_ (Trigger N dflt slice s)) (Z.rem (currentPlayQueue_ s + 1) N) =
    match outDevice_ s with
    | Some _ => if sendSync_ s && slice then [sync_message dflt 248] else []
    | None => []
    end /\
  calls (Trigger N dflt slice s) = calls s.
Proof.
  intros HN [Hl Hp Hout].
  pose proof (rem_succ_range N _ Hp) as Hw.
  unfold Trigger.
  replace (outDevice_ (AdvancePlayQueue N s)) with (outDevice_ s) by done.
  replace (sendSync_ (AdvancePlayQueue N s)) with (sendSync_ s) by done.
  destruct (outDevice_ s) as [o|] eqn:Ho;
    [destruct (sendSync_ s); [destruct slice|]|]; cbn [andb].
  - unfold QueueMessage.
    replace (outDevice_ (AdvancePlayQueue N s)) with (outDevice_ s) by done.
    rewrite Ho. cbn. rewrite !slot_get_set by (rewrite ?length_slot_set; lia).
    done.
  - cbn. by rewrite slot_get_cleared.
  - cbn. by rewrite slot_get_cleared.
  - cbn. by rewrite slot_get_cleared.
Qed.

(** ** Selecting among the input devices *)

Lemma Forall_dev_names (P : string -> Prop) (l : list MidiDevice) :
  Forall (fun d => P (dev_name d)) l <-> Forall P (dev_name <$> l).
Proof. by rewrite Forall_fmap. Qed.

Lemma select_visit_other s k :
  in_names s !! k <> Some (deviceName_ s) -> select_visit s k = s.
Proof.
  intros H. unfold select_visit, in_names in *.
  rewrite list_lookup_fmap in H.
  destruct (inList_ s !! k) as [d|]; [|done]. cbn in H.
  destruct (String.eqb_spec (deviceName_ s) (dev_name d)); [congruence | done].
Qed.

Lemma select_loop_none ks s :
  Forall (fun k => in_names s !! k <> Some (deviceName_ s)) ks ->
  foldl select_visit s ks = s.
Proof.
  induction 1 as [|k ks Hk _ IH]; [done|].
  cbn. by rewrite select_visit_other.
Qed.

Lemma select_search_none s :
  inDevice_ s = None ->
  Forall (fun d => dev_name d <> deviceName_ s) (inList_ s) ->
  select_search s =
  emit (TraceLog "MIDI" ("MIDI interface " +:+ deviceName_ s +:+ " not found")) s.
Proof.
  intros Hi Hall. unfold select_search. rewrite select_loop_none.
  - by rewrite Hi.
  - apply Forall_forall. intros k _. unfold in_names.
    rewrite list_lookup_fmap. destruct (inList_ s !! k) as [d|] eqn:Hk; [|done].
    cbn. rewrite Forall_lookup in Hall. specialize (Hall k d Hk). congruence.
Qed.

(** X15: when no input device bears the name, [SelectDevice] binds none,
    calls [Init] or [Start] on none and logs that the interface was not
    found; a device that was bound before is stopped, closed and
    unbound. *)
Theorem SelectDevice_unknown_name (name : string) (s : MidiService) :
  Forall (fun d => dev_name d <> name) (inList_ s) ->
  (inDevice_ s = None ->
   SelectDevice name s =
   emit (TraceLog "MIDI" ("MIDI interface " +:+ name +:+ " not found"))
     (set_deviceName name s)) /\
  (forall i d, inDevice_ s = Some i -> inList_ s !! i = Some d ->
   SelectDevice name s =
   emit (TraceLog "MIDI" ("MIDI interface " +:+ name +:+ " not found"))
     (set_inDevice None (in_Close i (in_Stop i (set_deviceName name s))))).
Proof.
  intros Hall. split.
  - intros Hi. rewrite SelectDevice_unbound by done.
    by rewrite select_search_none.
  - intros i d Hi Hd.
    rewrite (SelectDevice_other name s i); [|done|].
    + rewrite select_search_none; [done | done |].
      cbn. apply (Forall_dev_names (fun n => n <> name)).
      rewrite (fmap_name_alter dev_Close), (fmap_name_alter dev_Stop)
        by (done || apply dev_name_Stop).
      by apply (Forall_dev_names (fun n => n <> name)).
    + unfold in_GetName. rewrite Hd.
      rewrite Forall_lookup in Hall. apply (Hall i d Hd).
Qed.

Lemma select_search_single s k d :
  inList_ s !! k = Some d -> dev_name d = deviceName_ s ->
  (forall j d', j <> k -> inList_ s !! j = Some d' -> dev_name d' <> deviceName_ s) ->
  foldl select_visit s (seq 0 (length (inList_ s))) = select_visit s k.
Proof.
  intros Hk Hname Huniq.
  assert (Hlt : k < length (inList_ s)) by (by eapply lookup_lt_Some).
  assert (Hother : forall s', in_names s' = in_names s ->
            deviceName_ s' = deviceName_ s ->
            forall ks, k ∉ ks ->
            Forall (fun j => in_names s' !! j <> Some (deviceName_ s')) ks).
  { intros s' Hn Hd ks Hks. apply Forall_forall. intros j Hj.
    rewrite Hn, Hd. unfold in_names. rewrite list_lookup_fmap.
    destruct (inList_ s !! j) as [d'|] eqn:Hj'; [|done]. cbn.
    assert (j <> k) by (intros ->; apply Hks, list_elem_of_In, Hj).
    specialize (Huniq j d' H Hj'). congruence. }
  replace (length (inList_ s)) with (k + S (length (inList_ s) - S k)) by lia.
  rewrite seq_app. cbn [seq]. rewrite foldl_app. cbn [foldl].
  rewrite (select_loop_none (seq 0 k) s).
  - apply select_loop_none.
    destruct (selecting_visit s k) as [Hd Hn _ _ _].
    apply Hother; [done | done |].
    rewrite elem_of_seq. lia.
  - apply Hother; [done | done |]. rewrite elem_of_seq. lia.
Qed.

(** X16: when exactly one input device bears the name and none is bound,
    [SelectDevice] touches that device only.  If its [Init] and [Start]
    succeed it is bound and running and the activation is logged.  If its
    [Init] fails nothing is bound, no device changes, and the log says that
    the interface was not found. *)
Theorem SelectDevice_single_match (name : string) (s : MidiService)
    (k : nat) (d : MidiDevice) :
  inDevice_ s = None -> inList_ s !! k = Some d -> dev_name d = name ->
  (forall j d', j <> k -> inList_ s !! j = Some d' -> dev_name d' <> name) ->
  (forall j, j <> k -> inList_ (SelectDevice name s) !! j = inList_ s !! j) /\
  (dev_init_ok d = true -> dev_start_ok d = true ->
   inDevice_ (SelectDevice name s) = Some k /\
   inList_ (SelectDevice name s) !! k = Some (dev_with_state DevRunning d) /\
   calls (SelectDevice name s) =
     calls s ++ [InCall k CInit; InCall k CStart;
                 TraceLog "MIDI"
                   ("Controlling activated for MIDI interface " +:+ name)]) /\
  (dev_init_ok d = false ->
   inDevice_ (SelectDevice name s) = None /\
   inList_ (SelectDevice name s) = inList_ s /\
   calls (SelectDevice name s) =
     calls s ++ [InCall k CInit;
                 TraceLog "MIDI" ("MIDI interface " +:+ name +:+ " not found")]).
Proof.
  intros Hi Hk Hname Huniq.
  assert (Hlt : k < length (inList_ s)) by (by eapply lookup_lt_Some).
  rewrite SelectDevice_unbound by done. unfold select_search.
  rewrite (select_search_single (set_deviceName name s) k d) by done.
  unfold select_visit, in_Init. cbn [inList_ set_deviceName deviceName_].
  rewrite Hk, Hname, String.eqb_refl.
  destruct s as [ol il dn ind od qs pq oq md tf ss cs].
  destruct d as [nm iok sok st]. cbn in *. subst ind nm.
  unfold dev_Init. split; [|split].
  - intros j Hj. destruct iok; cbn.
    + unfold in_Start. cbn. rewrite list_lookup_insert_eq by done.
      unfold dev_Start. destruct sok; cbn.
      * rewrite list_insert_insert_eq. by apply list_lookup_insert_ne.
      * rewrite list_insert_insert_eq, list_lookup_alter_ne by done.
        by apply list_lookup_insert_ne.
    + by apply list_lookup_insert_ne.
  - intros -> ->. cbn. unfold in_Start. cbn.
    rewrite list_lookup_insert_eq by done. cbn.
    rewrite list_insert_insert_eq, list_lookup_insert_eq by done.
    repeat split. by rewrite <- !app_assoc.
  - intros ->. cbn. rewrite list_insert_id by done.
    repeat split. by rewrite <- !app_assoc.
Qed.

(** X17: [Close] with an input device bound stops and closes the output
    device, then the input device, in that order; afterwards no output
    device is bound and the input device is closed, but the input pointer
    still points at it; the ring is not touched. *)
Theorem Close_closes_both (s : MidiService) (i : nat) (d : MidiDevice) :
  inDevice_ s = Some i -> inList_ s !! i = Some d ->
  exists s',
    Close s = Ok s' /\
    outDevice_ s' = None /\
    inDevice_ s' = Some i /\
    dev_state <$> inList_ s' !! i = Some DevClosed /\
    calls s' = calls (stopOutDevice s) ++ [InCall i CStop; InCall i CClose] /\
    ring_of s' = ring_of s.
Proof.
  intros Hi Hd. unfold Close. rewrite inDevice_Stop, Hi. eexists. split; [done|].
  unfold Stop.
  destruct (stopOutDevice_frame s) as (_ & Hr & _ & _ & _ & Ho).
  assert (Hl : inList_ (stopOutDevice s) = inList_ s)
    by (by destruct s as [? ? ? ? [o|] ? ? ? ? ? ? ?]).
  unfold in_Close, in_Stop, emit.
  cbn [inList_ inDevice_ outDevice_ calls set_inList set_calls].
  split; [done|]. split; [by rewrite <- Hi, <- (inDevice_Stop s)|].
  split; [|split].
  - by rewrite !list_lookup_alter_eq, Hl, Hd.
  - by rewrite <- app_assoc.
  - done.
Qed.

(** ** Steps in lockstep with the flushes *)

Lemma run_items_level N p acc its s :
  length (queues_ s) = Z.to_nat N -> (0 <= p < N)%Z ->
  tickToFlush_ s = 0%Z -> is_Some (outDevice_ s) ->
  run N (item_op <$> its) (in_step p acc s) =
  in_step p (acc ++ omap (fun it => match it with Enq m => Some m | MidTick => None end) its) s.
Proof.
  intros Hl Hp Ht [o Ho]. revert acc. induction its as [|it its IH]; intros acc.
  - cbn. by rewrite app_nil_r.
  - destruct it as [m|]; rewrite fmap_cons, run_cons;
      cbn [exec item_op omap list_omap].
    + replace (QueueMessage m (in_step p acc s)) with (in_step p (acc ++ [m]) s).
      * rewrite IH. by rewrite <- app_assoc.
      * unfold QueueMessage, in_step. cbn. rewrite Ho.
        rewrite slot_get_set by lia. rewrite slot_set_set.
        by rewrite MidiMessage_copy.
    + rewrite onAudioTick_idle by (cbn; lia). apply IH.
Qed.

Lemma level_cycle N s o c :
  (0 < N)%Z -> level N s -> outDevice_ s = Some o ->
  (midiDelay_ s <= Z.of_nat (ticks_after c))%Z ->
  run N (cycle_ops c) s =
    emit (OutCall o (CSendQueue (cycle_msgs c)))
      (set_currentOutQueue (Z.rem (currentPlayQueue_ s + 1) N)
         (set_currentPlayQueue (Z.rem (currentPlayQueue_ s + 1) N)
            (set_queues
               (slot_set (queues_ s) (Z.rem (currentPlayQueue_ s + 1) N) []) s))) /\
  lost N (cycle_ops c) s =
    match overwritten N s with [] => [] | m :: q => [m :: q] end.
Proof.
  intros HN [[Hl Hp _] Hout Ht Hdelay Hdev] Ho Hd.
  pose proof (rem_succ_range N _ Hp) as Hp'.
  split.
  - unfold cycle_ops. rewrite run_cons, run_app. cbn [exec].
    rewrite AdvancePlayQueue_in_step.
    rewrite run_items_level by done. rewrite run_cons, run_ticks. cbn [exec].
    rewrite (Flush_then_ticks _ _ (Z.to_nat (midiDelay_ s))) by (cbn; lia).
    unfold cycle_msgs.
    destruct s as [ol il dn ind od qs pq oq md tf ss cs].
    cbn in *. subst od oq tf. unfold in_step, flushOutQueue. cbn.
    rewrite slot_get_set by lia. by rewrite slot_set_set.
  - unfold cycle_ops. cbn [lost].
    rewrite lost_no_advance.
    + rewrite app_nil_r. by destruct (overwritten N s).
    + apply Forall_app. split; [apply item_ops_no_advance|].
      constructor; [done|]. by apply Forall_replicate.
Qed.

Lemma level_after_cycle N s c :
  (0 < N)%Z -> level N s ->
  (midiDelay_ s <= Z.of_nat (ticks_after c))%Z ->
  level N (run N (cycle_ops c) s) /\
  midiDelay_ (run N (cycle_ops c) s) = midiDelay_ s /\
  sent (calls (run N (cycle_ops c) s)) = sent (calls s) ++ [cycle_msgs c].
Proof.
  intros HN Hlev Hd. pose proof Hlev as [[Hl Hp _] Hout Ht Hdelay [o Ho]].
  destruct (level_cycle N s o c HN Hlev Ho Hd) as [-> _].
  pose proof (rem_succ_range N _ Hp) as Hp'.
  split; [|split].
  - constructor; cbn; try done.
    constructor; cbn; [by rewrite length_slot_set | done | done].
  - done.
  - cbn. apply sent_snoc_send.
Qed.

(** X18: one playback step made with the cursors level and followed by
    enough ticks sends the messages of the step as one batch, whatever the
    ring held; what the slot after the write cursor held before is destroyed
    without being sent, no other slot changes, and the cursors end level one
    slot further. *)
Theorem step_sends_its_own_messages (N : Z) (s : MidiService) (o : nat)
    (c : Cycle) :
  (0 < N)%Z -> level N s -> outDevice_ s = Some o ->
  (midiDelay_ s <= Z.of_nat (ticks_after c))%Z ->
  run N (cycle_ops c) s =
    emit (OutCall o (CSendQueue (cycle_msgs c)))
      (set_currentOutQueue (Z.rem (currentPlayQueue_ s + 1) N)
         (set_currentPlayQueue (Z.rem (currentPlayQueue_ s + 1) N)
            (set_queues
               (slot_set (queues_ s) (Z.rem (currentPlayQueue_ s + 1) N) []) s))) /\
  lost N (cycle_ops c) s =
    match overwritten N s with [] => [] | m :: q => [m :: q] end.
Proof. apply level_cycle. Qed.

(** X19: in lockstep operation (cursors level at the start, at least
    [midiDelay_] ticks after each [Flush]) the batches sent are the messages
    of the steps and nothing else, whatever the queues held at the start: a
    message that was queued before the first [AdvancePlayQueue], such as the
    start byte of [OnPlayerStart], is in no batch. *)
Theorem lockstep_sends_only_steps (N : Z) (s : MidiService) (cycles : list Cycle) :
  (0 < N)%Z -> level N s ->
  Forall (fun c => (midiDelay_ s <= Z.of_nat (ticks_after c))%Z) cycles ->
  sent (calls (run N (concat (cycle_ops <$> cycles)) s)) =
    sent (calls s) ++ (cycle_msgs <$> cycles) /\
  level N (run N (concat (cycle_ops <$> cycles)) s).
Proof.
  intros HN Hlev H. revert s Hlev H.
  induction cycles as [|c cycles IH]; intros s Hlev H.
  - cbn. by rewrite app_nil_r.
  - inversion H as [|c' cycles' Hc H']; subst c' cycles'.
    destruct (level_after_cycle N s c HN Hlev Hc) as (Hlev' & Hdelay & Hsent).
    cbn [fmap list_fmap concat]. rewrite run_app.
    destruct (IH (run N (cycle_ops c) s) Hlev') as (Hs & Hl).
    { by rewrite Hdelay. }
    clear H H'. fold (cycle_ops <$> cycles) in *.
    rewrite Hs, Hsent. split; [|done]. by rewrite <- app_assoc.
Qed.

(** ** What the calls do to the countdown, the configuration and the input side *)

Lemma ring_of_tick s s' :
  ring_of s' = ring_of s -> tickToFlush_ s' = tickToFlush_ s.
Proof. by intros [= _ _ _ H]. Qed.

Lemma config_of_delay s s' :
  config_of s' = config_of s -> midiDelay_ s' = midiDelay_ s.
Proof. by intros [= H _]. Qed.

Lemma tickToFlush_QueueMessage m s :
  tickToFlush_ (QueueMessage m s) = tickToFlush_ s.
Proof. unfold QueueMessage. by destruct (outDevice_ s). Qed.

Lemma OnPlayerStart_frame dflt s :
  tickToFlush_ (OnPlayerStart dflt s) = tickToFlush_ s /\
  config_of (OnPlayerStart dflt s) = config_of s /\
  in_side (OnPlayerStart dflt s) = in_side s.
Proof.
  assert (Hq : forall x,
            tickToFlush_ x = tickToFlush_ s /\ config_of x = config_of s /\
            in_side x = in_side s ->
            let r := if sendSync_ x then QueueMessage (sync_message dflt 250) x
                     else x in
            tickToFlush_ r = tickToFlush_ s /\ config_of r = config_of s /\
            in_side r = in_side s).
  { intros x (Ht & Hc & Hi). cbn. destruct (sendSync_ x); [|done].
    destruct (QueueMessage_frame (sync_message dflt 250) x) as (_ & -> & -> & _).
    by rewrite tickToFlush_QueueMessage. }
  unfold OnPlayerStart.
  destruct (negb (Nat.eqb (String.length (deviceName_ s)) 0)); apply Hq.
  - destruct (startOutDevice_frame (stopOutDevice s)) as (_ & Hr & Hc & Hi & _).
    destruct (stopOutDevice_frame s) as (_ & Hr' & Hc' & Hi' & _).
    apply ring_of_tick in Hr, Hr'.
    change (tickToFlush_ (startOutDevice (stopOutDevice s)) = tickToFlush_ s /\
            config_of (startOutDevice (stopOutDevice s)) = config_of s /\
            in_side (startOutDevice (stopOutDevice s)) = in_side s).
    repeat split; congruence.
  - destruct (startOutDevice_frame s) as (_ & Hr & Hc & Hi & _).
    apply ring_of_tick in Hr. done.
Qed.

Lemma perform_effect N dflt tk s a :
  config_of (perform N dflt tk s a) = config_of s /\
  (tickToFlush_ (perform N dflt tk s a) = tickToFlush_ s \/
   tickToFlush_ (perform N dflt tk s a) = midiDelay_ s \/
   (0 < tickToFlush_ s)%Z /\
   tickToFlush_ (perform N dflt tk s a) = (tickToFlush_ s - 1)%Z) /\
  ((forall name, a <> DoSelectDevice name) ->
   in_side (perform N dflt tk s a) = in_side s).
Proof.
  destruct a as [name| | |m|slice|ty| | |]; cbn [perform].
  - destruct (SelectDevice_frame name s) as (Ht & Hc & _).
    apply ring_of_tick in Ht.
    split; [done|]. split; [by left|]. intros H. by destruct (H name).
  - repeat split; by left.
  - destruct (stopOutDevice_frame s) as (_ & Ht & Hc & Hi & _).
    apply ring_of_tick in Ht.
    split; [done|]. split; [by left | done].
  - destruct (QueueMessage_frame m s) as (_ & Hi & Hc & _).
    split; [done|]. split; [left; apply tickToFlush_QueueMessage | done].
  - unfold Trigger.
    destruct (outDevice_ (AdvancePlayQueue N s)); [|repeat split; by left].
    destruct (sendSync_ (AdvancePlayQueue N s)); [|repeat split; by left].
    destruct slice; [|repeat split; by left].
    destruct (QueueMessage_frame (sync_message dflt 248) (AdvancePlayQueue N s))
      as (_ & Hi & Hc & _).
    split; [done|]. split; [|done].
    left. by rewrite tickToFlush_QueueMessage.
  - unfold Update. destruct (ty =? tk)%Z; [|repeat split; by left].
    destruct (exec_frame N s OpTick) as (Hi & _ & Hc & _).
    split; [done|]. split; [|done]. cbn [exec] in *.
    destruct (Z.ltb_spec 0 (tickToFlush_ s)) as [Hpos|Hidle].
    + right. right. split; [done|].
      destruct (Z.eqb_spec (tickToFlush_ s - 1) 0) as [Hone|Hmore].
      * rewrite onAudioTick_fire by lia.
        rewrite tickToFlush_flushOutQueue. cbn. lia.
      * by rewrite onAudioTick_count by lia.
    + left. by rewrite onAudioTick_idle.
  - destruct (exec_frame N s OpFlush) as (Hi & _ & Hc & _).
    split; [done|]. split; [|done]. right. left. apply tickToFlush_Flush.
  - destruct (OnPlayerStart_frame dflt s) as (Ht & Hc & Hi).
    split; [done|]. split; [by left | done].
  - unfold OnPlayerStop. destruct (sendSync_ s); [|repeat split; by left].
    destruct (QueueMessage_frame (sync_message dflt 252) s) as (_ & Hi & Hc & _).
    split; [done|]. split; [left; apply tickToFlush_QueueMessage | done].
Qed.

Lemma perform_all_cons N dflt tk a acts s :
  perform_all N dflt tk (a :: acts) s =
  perform_all N dflt tk acts (perform N dflt tk s a).
Proof. done. Qed.

(** X20: no sequence of the calls [SelectDevice], [Start], [Stop],
    [QueueMessage], [Trigger], [Update], [Flush], [OnPlayerStart] and
    [OnPlayerStop] writes the configured delay or the sync flag, and among
    these calls [SelectDevice] alone changes the input devices and the input
    pointer.  [Init], which fills the lists anew, and [Close], which stops
    and closes the input device, are not among these calls. *)
Theorem config_and_input_are_stable (N : Z) (dflt : MidiMessage) (tk : Z)
    (acts : list Action) (s : MidiService) :
  config_of (perform_all N dflt tk acts s) = config_of s /\
  (Forall (fun a => forall name, a <> DoSelectDevice name) acts ->
   in_side (perform_all N dflt tk acts s) = in_side s).
Proof.
  revert s. induction acts as [|a acts IH]; intros s; [done|].
  rewrite perform_all_cons.
  destruct (perform_effect N dflt tk s a) as (Hc & _ & Hi).
  destruct (IH (perform N dflt tk s a)) as (Hc' & Hi').
  split; [congruence|].
  intros H. inversion H as [|a' acts' Ha Hacts]; subst a' acts'.
  rewrite Hi' by done. by apply Hi.
Qed.

(** X21: when the configured delay is not negative and the countdown starts
    between 0 and the delay, it stays between 0 and the delay after every
    sequence of calls: it is never negative and never exceeds the delay. *)
Theorem countdown_stays_bounded (N : Z) (dflt : MidiMessage) (tk : Z)
    (acts : list Action) (s : MidiService) :
  (0 <= tickToFlush_ s <= midiDelay_ s)%Z ->
  (0 <= tickToFlush_ (perform_all N dflt tk acts s) <= midiDelay_ s)%Z.
Proof.
  revert s. induction acts as [|a acts IH]; intros s H; [done|].
  rewrite perform_all_cons.
  destruct (perform_effect N dflt tk s a) as (Hd & Ht & _).
  apply config_of_delay in Hd.
  rewrite <- Hd. apply IH. rewrite Hd.
  destruct Ht as [->|[->|[Hpos ->]]]; lia.
Qed.

(** ** Steps that come faster than the delay *)

Lemma drain_count_app N a b s :
  drain_count N (a ++ b) s = drain_count N a s + drain_count N b (run N a s).
Proof.
  revert s. induction a as [|o a IH]; intros s; [done|].
  cbn [app drain_count]. rewrite IH, run_cons. lia.
Qed.

Lemma drain_count_early_ticks N t k s :
  tickToFlush_ s = Z.of_nat k -> t < k ->
  drain_count N (replicate t OpTick) s = 0.
Proof.
  revert k s. induction t as [|t IH]; intros k s Hk Ht; [done|].
  cbn [replicate drain_count fires exec].
  rewrite onAudioTick_count by lia.
  rewrite (IH (k - 1)) by (cbn; lia).
  destruct (Z.ltb_spec 0 (tickToFlush_ s)); [|lia].
  destruct (Z.eqb_spec (tickToFlush_ s - 1) 0); [lia | done].
Qed.

Lemma drain_count_items N its :
  forall s,
  Z.to_nat (tickToFlush_ s) = 0 \/ mid_ticks its < Z.to_nat (tickToFlush_ s) ->
  drain_count N (item_op <$> its) s = 0 /\
  calls (run N (item_op <$> its) s) = calls s /\
  midiDelay_ (run N (item_op <$> its) s) = midiDelay_ s.
Proof.
  induction its as [|it its IH]; intros s H; [done|].
  rewrite fmap_cons, run_cons.
  destruct it as [m|]; cbn [drain_count fires item_op exec mid_ticks] in *.
  - destruct (IH (QueueMessage m s)) as (-> & -> & ->).
    { by rewrite tickToFlush_QueueMessage. }
    destruct (QueueMessage_frame m s) as (_ & _ & Hd & _ & ->).
    by rewrite (config_of_delay _ _ Hd).
  - destruct (Z.ltb_spec 0 (tickToFlush_ s)) as [Hpos|Hneg].
    + destruct H as [H|H]; [lia|].
      destruct (Z.eqb_spec (tickToFlush_ s - 1) 0) as [|_]; [lia|].
      rewrite onAudioTick_count by lia.
      destruct (IH (set_tickToFlush (tickToFlush_ s - 1) s)) as (-> & -> & ->);
        [|done].
      right. cbn. lia.
    + rewrite onAudioTick_idle by done.
      destruct (IH s) as (-> & -> & ->); [|done]. left. lia.
Qed.

Lemma hurried_cycle N s c :
  Z.to_nat (tickToFlush_ s) = 0 \/
    mid_ticks (items c) < Z.to_nat (tickToFlush_ s) ->
  ticks_after c < Z.to_nat (midiDelay_ s) ->
  drain_count N (cycle_ops c) s = 0 /\
  calls (run N (cycle_ops c) s) = calls s /\
  midiDelay_ (run N (cycle_ops c) s) = midiDelay_ s /\
  tickToFlush_ (run N (cycle_ops c) s) =
    Z.of_nat (Z.to_nat (midiDelay_ s) - ticks_after c).
Proof.
  intros Hr Ht. unfold cycle_ops.
  rewrite run_cons. cbn [drain_count fires exec]. rewrite run_app, drain_count_app.
  destruct (drain_count_items N (items c) (AdvancePlayQueue N s) Hr)
    as (-> & Hc & Hd).
  set (s1 := run N (item_op <$> items c) (AdvancePlayQueue N s)) in *.
  change (midiDelay_ s1 = midiDelay_ s) in Hd.
  change (calls s1 = calls s) in Hc.
  rewrite run_cons. cbn [drain_count fires exec].
  rewrite Flush_arm by lia.
  destruct (Z.eqb_spec (midiDelay_ s1) 0) as [|_]; [lia|].
  rewrite (drain_count_early_ticks N _ (Z.to_nat (midiDelay_ s1))) by (cbn; lia).
  rewrite run_ticks.
  rewrite (ticks_before N (Z.to_nat (midiDelay_ s1))) by (cbn; lia).
  cbn. rewrite Hd. done.
Qed.

(** X22: when fewer ticks than the configured delay fall between every
    [Flush] and the next one (after the step and inside the next step taken
    together), and after the last, no drain ever fires: each [Flush] restarts
    the countdown before it ends, and nothing is sent however many steps are
    played. *)
Theorem fast_steps_starve_the_output (N : Z) (s : MidiService)
    (cycles : list Cycle) :
  hurried (Z.to_nat (midiDelay_ s)) (Z.to_nat (tickToFlush_ s)) cycles = true ->
  drain_count N (concat (cycle_ops <$> cycles)) s = 0 /\
  calls (run N (concat (cycle_ops <$> cycles)) s) = calls s.
Proof.
  revert s. induction cycles as [|c cycles IH]; intros s H; [done|].
  cbn [hurried] in H.
  apply andb_true_iff in H as [H Hrest]. apply andb_true_iff in H as [Hr Ht].
  apply Nat.ltb_lt in Ht.
  assert (Hr' : Z.to_nat (tickToFlush_ s) = 0 \/
                mid_ticks (items c) < Z.to_nat (tickToFlush_ s)).
  { apply orb_true_iff in Hr as [Hr|Hr].
    - left. by apply Nat.eqb_eq in Hr.
    - right. by apply Nat.ltb_lt in Hr. }
  destruct (hurried_cycle N s c Hr' Ht) as (Hd & Hc & Hm & Htick).
  cbn [fmap list_fmap concat]. fold (cycle_ops <$> cycles).
  rewrite drain_count_app, run_app, Hd.
  destruct (IH (run N (cycle_ops c) s)) as (-> & ->).
  { by rewrite Hm, Htick, Nat2Z.id. }
  done.
Qed.

(** ** The further properties at concrete inputs *)

Lemma sample_start_output :
  outDevice_ (startOutDevice (SelectDevice "port" (sample_new "1"))) = Some 0 /\
  outList (startOutDevice (SelectDevice "port" (sample_new "1"))) !! 0 =
    Some (mkDevice "port" true true DevRunning) /\
  startOutDevice (SelectDevice "nobody" (sample_new "1")) =
    SelectDevice "nobody" (sample_new "1").
Proof.
  destruct (startOutDevice_first_match (SelectDevice "port" (sample_new "1")))
    as [_ Hfirst].
  destruct (Hfirst 0 port_out ltac:(vm_compute; reflexivity)
              ltac:(vm_compute; reflexivity) ltac:(intros j d' Hj; lia))
    as (H1 & H2 & _).
  destruct (startOutDevice_first_match (SelectDevice "nobody" (sample_new "1")))
    as [Hnone _].
  assert (H3 := Hnone ltac:(vm_compute; repeat constructor; discriminate)).
  clear Hfirst Hnone.
  vm_compute in H1, H2, H3 |- *. auto.
Defined.

Lemma sample_stop_output :
  dev_state <$> outList (stopOutDevice (sample_playing "1")) !! 0 = Some DevClosed /\
  stopOutDevice (sample_new "1") = sample_new "1".
Proof.
  destruct (stopOutDevice_unbinds (sample_playing "1")) as (_ & _ & _ & Hb).
  destruct (Hb 0 (mkDevice "port" true true DevRunning)
              ltac:(vm_compute; reflexivity) ltac:(vm_compute; reflexivity))
    as [H1 _].
  destruct (stopOutDevice_unbinds (sample_new "1")) as (_ & _ & Hn & _).
  assert (H2 := Hn ltac:(vm_compute; reflexivity)).
  clear Hb Hn. vm_compute in H1, H2 |- *. auto.
Defined.

Lemma sample_input_only_name :
  deviceName_ (SelectDevice "pad" (sample_playing "1")) <> "" /\
  outDevice_ (OnPlayerStart unused_bytes (SelectDevice "pad" (sample_playing "1"))) =
    None.
Proof.
  assert (Hne : deviceName_ (SelectDevice "pad" (sample_playing "1")) <> "")
    by (vm_compute; discriminate).
  destruct (OnPlayerStart_unknown_name unused_bytes
              (SelectDevice "pad" (sample_playing "1")) Hne
              ltac:(vm_compute; repeat constructor; discriminate))
    as (_ & H & _).
  split; [exact Hne | exact H].
Defined.

Lemma sample_restart_playback :
  deviceName_ (sample_playing "1") = "" /\
  OnPlayerStart unused_bytes (sample_playing "1") = sample_playing "1".
Proof.
  assert (He : deviceName_ (sample_playing "1") = "") by (vm_compute; reflexivity).
  assert (H := OnPlayerStart_no_pending_name unused_bytes (sample_playing "1") He
                 ltac:(vm_compute; repeat constructor; discriminate)).
  split; [exact He|]. vm_compute in H |- *. exact H.
Defined.

Lemma sample_name_coupling :
  exists d,
    outList (OnPlayerStart unused_bytes (SelectDevice "port" (sample_new "1"))) !! 0 =
      Some d /\
    dev_name d = "port" /\ dev_state d = DevRunning.
Proof.
  apply (selected_name_picks_output unused_bytes "port" (sample_new "1") 0).
  - discriminate.
  - vm_compute. reflexivity.
Defined.

Lemma sample_session_in_ring :
  ring_ok 4 (perform_all 4 unused_bytes 1 sample_session (Start (sample_new "1")).1).
Proof.
  apply (cursors_stay_in_ring 4 unused_bytes 1 (sample_new "1") sample_session).
  - lia.
  - vm_compute. reflexivity.
Defined.

Lemma sample_session_output :
  out_ok (perform_all 4 unused_bytes 1 sample_session (sample_new "1")).
Proof.
  apply (bound_output_is_running 4 unused_bytes 1 (sample_new "1") sample_session).
  - intros i H. vm_compute in H. discriminate H.
  - vm_compute. repeat constructor; discriminate.
Defined.

Lemma sample_playing_ring : ring_ok 4 (sample_playing "1").
Proof.
  constructor.
  - vm_compute. reflexivity.
  - vm_compute. split; [discriminate | reflexivity].
  - vm_compute. split; [discriminate | reflexivity].
Defined.

Lemma sample_step_order :
  slot_get
    (queues_ (run 4 (OpAdvance :: (OpEnqueue <$> [noteA; noteB])) (sample_playing "1")))
    1 = [noteA; noteB] /\
  calls (flushOutQueue 4
     (run 4 (OpAdvance :: (OpEnqueue <$> [noteA; noteB])) (sample_playing "1"))) =
    calls (sample_playing "1") ++ [OutCall 0 (CSendQueue [noteA; noteB])].
Proof.
  destruct (step_keeps_insertion_order 4 (sample_playing "1") 0 [noteA; noteB]
              ltac:(lia) sample_playing_ring ltac:(vm_compute; reflexivity))
    as (_ & H1 & _ & Hsend).
  assert (H2 := Hsend ltac:(vm_compute; reflexivity)). clear Hsend.
  vm_compute in H1, H2 |- *. auto.
Defined.

Lemma sample_unbound_silent :
  outDevice_ (Start (sample_new "1")).1 = None /\
  calls (run 4 (scenario noteA noteB) (Start (sample_new "1")).1) =
    calls (Start (sample_new "1")).1.
Proof.
  assert (H : outDevice_ (Start (sample_new "1")).1 = None)
    by (vm_compute; reflexivity).
  destruct (unbound_ring_is_silent 4 (scenario noteA noteB)
              (Start (sample_new "1")).1 H) as [Hc _].
  split; [exact H | exact Hc].
Defined.

Lemma sample_negative_delay :
  midiDelay_ (sample_playing "-3") = (-3)%Z /\
  drain_count 4 (scenario noteA noteB ++ replicate 9 OpTick) (sample_playing "-3") = 0.
Proof.
  split; [vm_compute; reflexivity|].
  apply (negative_delay_never_drains 4 (scenario noteA noteB ++ replicate 9 OpTick)
           (sample_playing "-3")); vm_compute; [reflexivity | discriminate].
Defined.

Lemma sample_trigger :
  slot_get (queues_ (Trigger 4 unused_bytes true sample_synced)) 1 =
    [mkMidiMessage 248 255 255] /\
  slot_get (queues_ (Trigger 4 unused_bytes false sample_synced)) 1 = [].
Proof.
  assert (Hr : ring_ok 4 sample_synced).
  { constructor; vm_compute; first [reflexivity | split; [discriminate | reflexivity]]. }
  destruct (Trigger_starts_a_slot 4 unused_bytes true sample_synced
              ltac:(lia) Hr) as (_ & H1 & _).
  destruct (Trigger_starts_a_slot 4 unused_bytes false sample_synced
              ltac:(lia) Hr) as (_ & H2 & _).
  vm_compute in H1, H2 |- *. auto.
Defined.

Lemma sample_unknown_input :
  inDevice_ (SelectDevice "nobody" (sample_new "1")) = None /\
  inDevice_ (SelectDevice "nobody" (sample_playing "1")) = None /\
  dev_state <$> inList_ (SelectDevice "nobody" (sample_playing "1")) !! 0 =
    Some DevClosed.
Proof.
  destruct (SelectDevice_unknown_name "nobody" (sample_new "1")
              ltac:(vm_compute; repeat constructor; discriminate)) as [Hfree _].
  assert (H1 := Hfree ltac:(vm_compute; reflexivity)).
  destruct (SelectDevice_unknown_name "nobody" (sample_playing "1")
              ltac:(vm_compute; repeat constructor; discriminate)) as [_ Hbound].
  assert (H2 := Hbound 0 (mkDevice "port" true true DevRunning)
                  ltac:(vm_compute; reflexivity) ltac:(vm_compute; reflexivity)).
  clear Hfree Hbound. rewrite H1, H2. vm_compute. auto.
Defined.

Lemma sample_single_input :
  inDevice_ (SelectDevice "port" (sample_new "1")) = Some 0 /\
  inList_ (SelectDevice "port" (sample_new "1")) !! 0 =
    Some (mkDevice "port" true true DevRunning) /\
  inDevice_ (SelectDevice "dead" sample_dead) = None /\
  calls (SelectDevice "dead" sample_dead) =
    [InCall 0 CInit; TraceLog "MIDI" "MIDI interface dead not found"].
Proof.
  destruct (SelectDevice_single_match "port" (sample_new "1") 0 port_in
              ltac:(vm_compute; reflexivity) ltac:(vm_compute; reflexivity)
              ltac:(reflexivity)) as (_ & Hok & _).
  { intros [|[|[|j]]] d' Hj Hd'; vm_compute in Hd'; try done;
      injection Hd' as <-; discriminate. }
  destruct (Hok ltac:(reflexivity) ltac:(reflexivity)) as (H1 & H2 & _).
  destruct (SelectDevice_single_match "dead" sample_dead 0 dead_in
              ltac:(vm_compute; reflexivity) ltac:(vm_compute; reflexivity)
              ltac:(reflexivity)) as (_ & _ & Hfail).
  { intros [|j] d' Hj Hd'; vm_compute in Hd'; [done | discriminate]. }
  destruct (Hfail ltac:(reflexivity)) as (H3 & _ & H4).
  clear Hok Hfail. vm_compute in H1, H2, H3, H4 |- *. auto.
Defined.

Lemma sample_close :
  exists s',
    Close (sample_playing "1") = Ok s' /\
    outDevice_ s' = None /\
    inDevice_ s' = Some 0 /\
    dev_state <$> inList_ s' !! 0 = Some DevClosed /\
    calls s' = calls (stopOutDevice (sample_playing "1")) ++
               [InCall 0 CStop; InCall 0 CClose] /\
    ring_of s' = ring_of (sample_playing "1").
Proof.
  apply (Close_closes_both (sample_playing "1") 0
           (mkDevice "port" true true DevRunning));
    vm_compute; reflexivity.
Defined.

Lemma sample_stray_level : level 4 sample_stray.
Proof.
  constructor.
  - constructor; vm_compute;
      first [reflexivity | split; [discriminate | reflexivity]].
  - vm_compute. reflexivity.
  - vm_compute. reflexivity.
  - vm_compute. discriminate.
  - exists 0. vm_compute. reflexivity.
Defined.

Lemma sample_stray_step :
  slot_get (queues_ sample_stray) 0 = [noteB] /\
  sent (calls (run 4 (cycle_ops (mkCycle [Enq noteA] 1)) sample_stray)) = [[noteA]] /\
  lost 4 (cycle_ops (mkCycle [Enq noteA] 1)) sample_stray = [].
Proof.
  destruct (step_sends_its_own_messages 4 sample_stray 0 (mkCycle [Enq noteA] 1)
              ltac:(lia) sample_stray_level ltac:(vm_compute; reflexivity)
              ltac:(vm_compute; discriminate)) as [H1 H2].
  rewrite H1, H2. vm_compute. auto.
Defined.

Lemma sample_synced_level : level 4 sample_synced.
Proof.
  constructor.
  - constructor; vm_compute;
      first [reflexivity | split; [discriminate | reflexivity]].
  - vm_compute. reflexivity.
  - vm_compute. reflexivity.
  - vm_compute. discriminate.
  - exists 0. vm_compute. reflexivity.
Defined.

Lemma sample_start_byte_never_sent :
  slot_get (queues_ sample_synced) 0 = [mkMidiMessage 250 255 255] /\
  sent (calls (run 4 (concat (cycle_ops <$> one_tick_per_step)) sample_synced)) =
    [[step_note 1]; [step_note 2]; [step_note 3]; [step_note 4]; [step_note 5]] /\
  lost 4 (concat (cycle_ops <$> one_tick_per_step)) sample_synced =
    [[mkMidiMessage 250 255 255]].
Proof.
  destruct (lockstep_sends_only_steps 4 sample_synced one_tick_per_step
              ltac:(lia) sample_synced_level
              ltac:(repeat constructor; vm_compute; discriminate)) as [H _].
  rewrite H. vm_compute. auto.
Defined.

Lemma sample_playback_stable :
  config_of (perform_all 4 unused_bytes 1 sample_session (sample_new "2")) =
    (2%Z, false) /\
  in_side (perform_all 4 unused_bytes 1 sample_playback (sample_playing "2")) =
    in_side (sample_playing "2").
Proof.
  destruct (config_and_input_are_stable 4 unused_bytes 1 sample_session
              (sample_new "2")) as [H1 _].
  destruct (config_and_input_are_stable 4 unused_bytes 1 sample_playback
              (sample_playing "2")) as [_ Hin].
  assert (H2 := Hin ltac:(repeat constructor; discriminate)). clear Hin.
  split; [rewrite H1; vm_compute; reflexivity | exact H2].
Defined.

Lemma sample_countdown :
  (0 <= tickToFlush_ (perform_all 4 unused_bytes 1 sample_session (sample_new "2"))
     <= midiDelay_ (sample_new "2"))%Z.
Proof.
  apply (countdown_stays_bounded 4 unused_bytes 1 sample_session (sample_new "2")).
  vm_compute. split; discriminate.
Defined.

Lemma sample_starved :
  drain_count 4 (concat (cycle_ops <$> ticks_inside_steps)) (sample_playing "3") = 0 /\
  calls (run 4 (concat (cycle_ops <$> ticks_inside_steps)) (sample_playing "3")) =
    calls (sample_playing "3").
Proof.
  apply (fast_steps_starve_the_output 4 (sample_playing "3") ticks_inside_steps).
  vm_compute. reflexivity.
Defined.
